(** * page_layout::Settings — the per-page layout store

    A shallow embedding of [src/filters/page_layout/Settings.cpp]: the
    entry record [Item], the three-index container held by
    [Settings::Impl] and its ten member functions, followed by the
    properties of the store.

    Conventions of the model.
    - A [double] is a binary64 floating-point number ([float], the
      primitive type specified by [FloatAxioms]): the sums of
      [hardWidthMM] / [hardHeightMM] round as IEEE 754 sums do, and the
      comparisons of [std::greater<double>] and [std::max] are false
      whenever an operand is a NaN.  No setter rejects a NaN, so the
      properties that need the two orders to be sorted are stated for
      the histories in which no stored entry ever had a NaN hard size
      ([never_nan]).
    - [boost::multi_index_container] is a library, not part of this
      file's source.  Each of its three ordered indices is the sequence
      an iteration over the index yields, front to back; a node is
      named by the [pageId] of the value it holds (the first index is
      [ordered_unique] on it).  The index operations below follow
      [boost/multi_index/detail/ord_index_impl.hpp].
    - A member function is a state transformer over [Impl]; a [const]
      member function returns the store as it found it. *)

From Stdlib Require Import List ZArith NArith Lia Bool Floats.
From Stdlib Require Import Sorting.Sorted Sorting.Permutation.
Import ListNotations.

(** ** Value types used by the store *)

(** Modelled from the spec: [PageId] ([PageId.h] is not part of the
    source at hand): "opaque, totally ordered, equality-comparable,
    has a null/default sentinel value".  A page is numbered by a
    natural number, ordered by [N.lt]; [PageId()] is number 0. *)
Definition PageId := N.

Definition PageId_null : PageId := 0%N.

(** Modelled from the spec: [Margins] ([Margins.h] is not part of the
    source at hand): four scalars; the constructor takes them in the
    order (left, top, right, bottom), which is the order that makes the
    default [Margins(10.0, 5.0, 10.0, 5.0)] the spec's
    "left:10, right:10, top:5, bottom:5". *)
Record Margins : Type := mkMargins {
  left : float;
  top : float;
  right : float;
  bottom : float
}.

(** [QSizeF]: width and height. *)
Record QSizeF : Type := mkQSizeF {
  width : float;
  height : float
}.

(** [QRectF]: position and extent; [QRectF()] is the null rectangle. *)
Record QRectF : Type := mkQRectF {
  rect_x : float;
  rect_y : float;
  rect_w : float;
  rect_h : float
}.

Definition QRectF_null : QRectF := mkQRectF 0 0 0 0.

(** Modelled from the spec: [Alignment] ([Alignment.h] is not part of
    the source at hand): "an enumerated pair (vertical choice,
    horizontal choice)". *)
Inductive Vertical : Type := TOP | VCENTER | BOTTOM.

Inductive Horizontal : Type := LEFT | HCENTER | RIGHT.

Record Alignment : Type := mkAlignment {
  vertical : Vertical;
  horizontal : Horizontal
}.

(** [Params]: the bundle built by [getPageParams], in the order of the
    constructor call of the source. *)
Record Params : Type := mkParams {
  params_hardMarginsMM : Margins;
  params_contentRect : QRectF;
  params_contentSizeMM : QSizeF;
  params_alignment : Alignment
}.

(** ** Settings::Item *)

Record Item : Type := mkItem {
  pageId : PageId;
  hardMarginsMM : Margins;
  contentRect : QRectF;
  contentSizeMM : QSizeF;
  alignment : Alignment
}.

Definition hardWidthMM (item : Item) : float :=
  (width (contentSizeMM item) + left (hardMarginsMM item)
   + right (hardMarginsMM item))%float.

Definition hardHeightMM (item : Item) : float :=
  (height (contentSizeMM item) + top (hardMarginsMM item)
   + bottom (hardMarginsMM item))%float.

(** The three modifiers handed to [Container::modify]. *)
Definition ModifyMargins (margins_mm : Margins) (item : Item) : Item :=
  mkItem (pageId item) margins_mm (contentRect item)
         (contentSizeMM item) (alignment item).

Definition ModifyAlignment (a : Alignment) (item : Item) : Item :=
  mkItem (pageId item) (hardMarginsMM item) (contentRect item)
         (contentSizeMM item) a.

Definition ModifyContentSize (content_size_mm : QSizeF) (item : Item) : Item :=
  mkItem (pageId item) (hardMarginsMM item) (contentRect item)
         content_size_mm (alignment item).

(** ** The ordered indices of the container *)

(** [std::greater<double>]: [a > b]. *)
Definition greater (a b : float) : bool := (b <? a)%float.

(** [std::max(a, b)]: [(a < b) ? b : a]. *)
Definition std_max (a b : float) : float := if (a <? b)%float then b else a.

(** A position in an index: the node holding page [p], or [end()]. *)
Definition Position := option PageId.

Definition is_node (pos : Position) (x : Item) : bool :=
  match pos with
  | Some p => (pageId x =? p)%N
  | None => false
  end.

(** The elements before a position and the elements from it on. *)
Fixpoint split_at_node (pos : Position) (l : list Item)
  : list Item * list Item :=
  match l with
  | [] => ([], [])
  | x :: r =>
      if is_node pos x then ([], l)
      else let (a, b) := split_at_node pos r in (x :: a, b)
  end.

Section OrderedNonUnique.

(** The key extractor of the index ([hardWidthMM] or [hardHeightMM]);
    the comparison is [greater]. *)
Variable key : Item -> float.

(** [link_point]: the descent goes left where [comp(k, key(x))], so
    the new node lands before the first element the key is greater
    than, after every equivalent one. *)
Fixpoint link_point (v : Item) (l : list Item) : list Item :=
  match l with
  | [] => [v]
  | x :: r =>
      if greater (key v) (key x) then v :: l else x :: link_point v r
  end.

(** [lower_link_point]: the descent goes right where
    [comp(key(x), k)], so the new node lands before every equivalent
    element. *)
Fixpoint lower_link_point (v : Item) (l : list Item) : list Item :=
  match l with
  | [] => [v]
  | x :: r =>
      if greater (key x) (key v) then x :: lower_link_point v r
      else v :: l
  end.

(** [hinted_link_point] followed by [link]: insertion with a hint.
    The three cases are: the hint is the leftmost node (which is the
    header in an empty index), the hint is the header, the hint has a
    predecessor. *)
Definition hinted_link (position : Position) (v : Item) (l : list Item)
  : list Item :=
  match split_at_node position l with
  | ([], []) => lower_link_point v l
  | ([], p :: _) =>
      if negb (greater (key p) (key v)) then v :: l
      else lower_link_point v l
  | (b :: pre, []) =>
      if negb (greater (key v) (key (last pre b))) then l ++ [v]
      else link_point v l
  | (b :: pre, p :: post) =>
      if negb (greater (key v) (key (last pre b))) then
        if negb (greater (key p) (key v))
        then (b :: pre) ++ v :: p :: post
        else lower_link_point v l
      else link_point v l
  end.

(** [in_place] for a node whose neighbours are the last of [pre] and
    the first of [next]. *)
Definition in_place (v : Item) (pre next : list Item) : bool :=
  match pre with
  | [] => true
  | b :: pre' => negb (greater (key v) (key (last pre' b)))
  end
  &&
  match next with
  | [] => true
  | y :: _ => negb (greater (key y) (key v))
  end.

(** [modify_]: the node of page [p] now holds [v]; it stays where it
    is when it is still in place, and is unlinked and linked again at
    [link_point] otherwise. *)
Definition modify_ (p : PageId) (v : Item) (l : list Item) : list Item :=
  match split_at_node (Some p) l with
  | (_, []) => l
  | (pre, _ :: next) =>
      if in_place v pre next then pre ++ v :: next
      else link_point v (pre ++ next)
  end.

End OrderedNonUnique.

(** The first index, [ordered_unique] on [pageId] with [std::less]:
    [lower_bound] yields an iterator, here the elements before it and
    the elements from it on. *)
Fixpoint lower_bound (page_id : PageId) (l : list Item)
  : list Item * list Item :=
  match l with
  | [] => ([], [])
  | x :: r =>
      if (pageId x <? page_id)%N
      then let (a, b) := lower_bound page_id r in (x :: a, b)
      else ([], l)
  end.

(** [find] of an ordered index: the lower bound, unless the key is
    less than the one found there. *)
Definition find (page_id : PageId) (l : list Item) : option Item :=
  match snd (lower_bound page_id l) with
  | [] => None
  | x :: _ => if (page_id <? pageId x)%N then None else Some x
  end.

(** ** Settings::Impl *)

(** [m_items] is the container seen through its first index;
    [m_descWidthOrder] and [m_descHeightOrder] are its two other
    indices, to which the source keeps references. *)
Record Impl : Type := mkImpl {
  m_items : list Item;
  m_descWidthOrder : list Item;
  m_descHeightOrder : list Item
}.

Definition m_zeroSize : QSizeF := mkQSizeF 0 0.

Definition m_defaultHardMarginsMM : Margins := mkMargins 10 5 10 5.

Definition m_defaultAlignment : Alignment := mkAlignment VCENTER HCENTER.

(** [Impl::Impl()]. *)
Definition Impl_new : Impl := mkImpl [] [] [].

(** A member function: the value returned and the store left behind. *)
Definition Method (A : Type) : Type := Impl -> A * Impl.

Definition result {A : Type} (m : Method A) (s : Impl) : A := fst (m s).

Definition store_after {A : Type} (m : Method A) (s : Impl) : Impl :=
  snd (m s).

(** [m_items.insert(it, item)] where [it] splits the first index into
    [pre] and [post]: the node is linked before [it] there, and the
    same node is the hint in the two other indices. *)
Definition container_insert (pre post : list Item) (item : Item) (s : Impl)
  : Impl :=
  let hint : Position := option_map pageId (head post) in
  mkImpl (pre ++ item :: post)
         (hinted_link hardWidthMM hint item (m_descWidthOrder s))
         (hinted_link hardHeightMM hint item (m_descHeightOrder s)).

(** [m_items.modify(it, modifier)] where [it] points at [x], between [pre]
    and [post] in the first index: the value is changed in the node,
    then every index checks the node's place.  No modifier of this
    file changes [pageId], so the node keeps its place in the first
    index. *)
Definition container_modify (pre : list Item) (x : Item) (post : list Item)
  (modifier : Item -> Item) (s : Impl) : Impl :=
  let v := modifier x in
  mkImpl (pre ++ v :: post)
         (modify_ hardWidthMM (pageId x) v (m_descWidthOrder s))
         (modify_ hardHeightMM (pageId x) v (m_descHeightOrder s)).

(** The shape shared by the three setters: [lower_bound], then insert
    a new item or modify the one found. *)
Definition upsert (page_id : PageId) (item : Item) (modifier : Item -> Item)
  (s : Impl) : Impl :=
  match lower_bound page_id (m_items s) with
  | (pre, []) => container_insert pre [] item s
  | (pre, x :: post) =>
      if (page_id <? pageId x)%N
      then container_insert pre (x :: post) item s
      else container_modify pre x post modifier s
  end.

Definition getPageParams (page_id : PageId) : Method (option Params) :=
  fun s =>
    match find page_id (m_items s) with
    | None => (None, s)
    | Some it =>
        (Some (mkParams (hardMarginsMM it) (contentRect it)
                        (contentSizeMM it) (alignment it)), s)
    end.

Definition getHardMarginsMM (page_id : PageId) : Method Margins :=
  fun s =>
    match find page_id (m_items s) with
    | None => (m_defaultHardMarginsMM, s)
    | Some it => (hardMarginsMM it, s)
    end.

Definition setHardMarginsMM (page_id : PageId) (margins_mm : Margins)
  : Method unit :=
  fun s =>
    (tt, upsert page_id
           (mkItem page_id margins_mm QRectF_null m_zeroSize
                   m_defaultAlignment)
           (ModifyMargins margins_mm) s).

Definition getPageAlignment (page_id : PageId) : Method Alignment :=
  fun s =>
    match find page_id (m_items s) with
    | None => (m_defaultAlignment, s)
    | Some it => (alignment it, s)
    end.

Definition setPageAlignment (page_id : PageId) (a : Alignment)
  : Method unit :=
  fun s =>
    (tt, upsert page_id
           (mkItem page_id m_defaultHardMarginsMM QRectF_null m_zeroSize a)
           (ModifyAlignment a) s).

Definition setContentZone (page_id : PageId) (content_rect : QRectF)
  (content_size_mm : QSizeF) : Method unit :=
  fun s =>
    (tt, upsert page_id
           (mkItem page_id m_defaultHardMarginsMM content_rect
                   content_size_mm m_defaultAlignment)
           (ModifyContentSize content_size_mm) s).

(** [getAggregateHardSizeMM()].  [m_items.empty()] is asked of the
    container; the two orders are indices of that same container, so
    [begin()] of an order is dereferenced on a non-empty sequence, and
    the last branch below is not reached from [Impl_new]
    (see [structural_first]). *)
Definition getAggregateHardSizeMM : Method QSizeF :=
  fun s =>
    match m_items s with
    | [] => (mkQSizeF 0 0, s)
    | _ :: _ =>
        match m_descWidthOrder s, m_descHeightOrder s with
        | max_width_item :: _, max_height_item :: _ =>
            (mkQSizeF (hardWidthMM max_width_item)
                      (hardHeightMM max_height_item), s)
        | _, _ => (mkQSizeF 0 0, s)
        end
    end.

(** One axis of [getAggregateHardSizeMM(page_id, hard_size_mm)]:
    [order] is the index, [key] its extractor and [hard] the component
    of [hard_size_mm].  An empty [order] is not reached: the caller
    has returned before. *)
Definition aggregate_axis (key : Item -> float) (order : list Item)
  (page_id : PageId) (hard : float) : float :=
  match order with
  | [] => 0%float
  | it :: rest =>
      if negb (pageId it =? page_id)%N then key it
      else
        match rest with
        | [] => hard
        | it' :: _ => std_max hard (key it')
        end
  end.

(** [getAggregateHardSizeMM(page_id, hard_size_mm)]. *)
Definition getAggregateHardSizeMM_for (page_id : PageId)
  (hard_size_mm : QSizeF) : Method QSizeF :=
  fun s =>
    match m_items s with
    | [] => (mkQSizeF 0 0, s)
    | _ :: _ =>
        (mkQSizeF
           (aggregate_axis hardWidthMM (m_descWidthOrder s) page_id
                           (width hard_size_mm))
           (aggregate_axis hardHeightMM (m_descHeightOrder s) page_id
                           (height hard_size_mm)), s)
    end.

Definition findWidestPage : Method PageId :=
  fun s =>
    match m_items s with
    | [] => (PageId_null, s)
    | _ :: _ =>
        match m_descWidthOrder s with
        | it :: _ => (pageId it, s)
        | [] => (PageId_null, s)
        end
    end.

Definition findTallestPage : Method PageId :=
  fun s =>
    match m_items s with
    | [] => (PageId_null, s)
    | _ :: _ =>
        match m_descHeightOrder s with
        | it :: _ => (pageId it, s)
        | [] => (PageId_null, s)
        end
    end.

(** ** Histories of the store *)

(** The three mutating calls of the public interface. *)
Inductive Call : Type :=
| SetHardMarginsMM (page_id : PageId) (margins_mm : Margins)
| SetPageAlignment (page_id : PageId) (a : Alignment)
| SetContentZone (page_id : PageId) (content_rect : QRectF)
                 (content_size_mm : QSizeF).

Definition call_page (c : Call) : PageId :=
  match c with
  | SetHardMarginsMM p _ => p
  | SetPageAlignment p _ => p
  | SetContentZone p _ _ => p
  end.

Definition perform (s : Impl) (c : Call) : Impl :=
  match c with
  | SetHardMarginsMM p m => store_after (setHardMarginsMM p m) s
  | SetPageAlignment p a => store_after (setPageAlignment p a) s
  | SetContentZone p r sz => store_after (setContentZone p r sz) s
  end.

(** The store reached from the freshly constructed one by a sequence
    of calls, oldest first. *)
Definition reached (calls : list Call) : Impl :=
  fold_left perform calls Impl_new.

(** Neither hard size of the entry is a NaN. *)
Definition sizes_not_nan (it : Item) : bool :=
  negb (is_nan (hardWidthMM it)) && negb (is_nan (hardHeightMM it)).

(** No call of the sequence, performed from [s] on, leaves a stored
    entry whose hard width or hard height is a NaN. *)
Fixpoint never_nan_from (s : Impl) (calls : list Call) : bool :=
  match calls with
  | [] => true
  | c :: rest =>
      forallb sizes_not_nan (m_items (perform s c))
      && never_nan_from (perform s c) rest
  end.

Definition never_nan (calls : list Call) : bool :=
  never_nan_from Impl_new calls.

(** ** Reference definitions the store is compared with *)

(** The hard size of an entry as the spec words it:
    contentSize.width + margins.left + margins.right, and
    contentSize.height + margins.top + margins.bottom. *)
Definition reference_hard_width (it : Item) : float :=
  (width (contentSizeMM it) + left (hardMarginsMM it)
   + right (hardMarginsMM it))%float.

Definition reference_hard_height (it : Item) : float :=
  (height (contentSizeMM it) + top (hardMarginsMM it)
   + bottom (hardMarginsMM it))%float.

(** A linear scan for the maximum of [f] over [x :: r]: the running
    maximum is replaced by each value it is less than. *)
Definition scan_max (f : Item -> float) (x : Item) (r : list Item) : float :=
  fold_left (fun acc it => if (acc <? f it)%float then f it else acc)
            r (f x).

(** The aggregate as the spec words it: the pair of the two maxima,
    each found by a scan over all entries; (0,0) for no entry. *)
Definition reference_aggregate (entries : list Item) : QSizeF :=
  match entries with
  | [] => mkQSizeF 0 0
  | x :: r =>
      mkQSizeF (scan_max reference_hard_width x r)
               (scan_max reference_hard_height x r)
  end.

(** The entries other than the one of page [k]. *)
Definition others (k : PageId) (entries : list Item) : list Item :=
  filter (fun it => negb (pageId it =? k)%N) entries.

(** One axis of the what-if aggregate over a hard size: the maximum of
    the hypothetical value and of every other entry's. *)
Definition reference_what_if (f : Item -> float) (k : PageId) (hard : float)
  (entries : list Item) : float :=
  match others k entries with
  | [] => hard
  | y :: r => if (hard <? scan_max f y r)%float then scan_max f y r else hard
  end.

(** [m] is a maximum of [f] over [l]: the value of an element, and
    less than the value of none. *)
Definition maximum_of (f : Item -> float) (m : float) (l : list Item)
  : Prop :=
  (exists y, In y l /\ m = f y)
  /\ forall z, In z l -> (m <? f z)%float = false.

(** The order of an index: no element is less than a later one. *)
Definition desc (key : Item -> float) (a b : Item) : Prop :=
  (key a <? key b)%float = false.

Definition keys (l : list Item) : list PageId := map pageId l.

(** What the container keeps whatever the scalars are: the keys of the
    first index ascend, and the two orders hold its entries. *)
Record structural (s : Impl) : Prop := mkStructural {
  ids_ascending : StronglySorted N.lt (keys (m_items s));
  width_entries : Permutation (m_descWidthOrder s) (m_items s);
  height_entries : Permutation (m_descHeightOrder s) (m_items s)
}.

(** What it keeps as long as no hard size is a NaN: both orders
    descend. *)
Record ordered (s : Impl) : Prop := mkOrdered {
  ordered_structural : structural s;
  no_nan : forallb sizes_not_nan (m_items s) = true;
  width_descending : StronglySorted (desc hardWidthMM) (m_descWidthOrder s);
  height_descending : StronglySorted (desc hardHeightMM) (m_descHeightOrder s)
}.

(** The node of page [k], if the index has one, passes [in_place]. *)
Definition node_in_place (key : Item -> float) (k : PageId) (l : list Item)
  : Prop :=
  forall pre x next,
    split_at_node (Some k) l = (pre, x :: next) ->
    in_place key x pre next = true.

(** The claim that a tie for the largest width is broken by page
    order, as the spec words it: the entries sharing the largest
    [hardWidthMM] stand in ascending [pageId] order in the width index,
    and [findWidestPage] answers the smallest of their pages. *)
Definition widest_ties (s : Impl) : list Item :=
  match m_descWidthOrder s with
  | [] => []
  | it :: _ =>
      filter (fun x => (hardWidthMM x =? hardWidthMM it)%float)
             (m_descWidthOrder s)
  end.

Definition ties_in_page_order (s : Impl) : Prop :=
  StronglySorted N.lt (keys (widest_ties s))
  /\ forall x, In x (widest_ties s) ->
               (result findWidestPage s <= pageId x)%N.

(** The width of the what-if aggregate as the spec words it, for the
    case where page [k] is the widest: the hypothetical width is
    derived from the size and the margins stored for [k], and compared
    with the runner-up of the width index. *)
Definition spec_what_if_width (k : PageId) (sz : QSizeF) (s : Impl) : float :=
  let m := result (getHardMarginsMM k) s in
  let hypothetical := (width sz + left m + right m)%float in
  match m_descWidthOrder s with
  | _ :: runner_up :: _ =>
      if (hypothetical <? hardWidthMM runner_up)%float
      then hardWidthMM runner_up else hypothetical
  | _ => hypothetical
  end.

(** Each key of [entries] occurs once in [order], and no other does. *)
Definition one_entry_per_key (order entries : list Item) : Prop :=
  NoDup (keys order)
  /\ forall k, In k (keys order) <-> In k (keys entries).

(** ** What one page holds, read off the calls *)

(** The hard size a page has with margins [m] and content size [sz]:
    the two sums of [Item::hardWidthMM] and [Item::hardHeightMM]. *)
Definition hard_size_with (m : Margins) (sz : QSizeF) : QSizeF :=
  mkQSizeF (width sz + left m + right m) (height sz + top m + bottom m).

(** The bundle a page holds after call [c] on it, given what it held
    before: the [Item] built on the insert path of the setter when the
    page held nothing, the effect of its modifier otherwise. *)
Definition write_params (c : Call) (old : option Params) : Params :=
  match c, old with
  | SetHardMarginsMM _ m, None =>
      mkParams m QRectF_null m_zeroSize m_defaultAlignment
  | SetHardMarginsMM _ m, Some p =>
      mkParams m (params_contentRect p) (params_contentSizeMM p)
               (params_alignment p)
  | SetPageAlignment _ a, None =>
      mkParams m_defaultHardMarginsMM QRectF_null m_zeroSize a
  | SetPageAlignment _ a, Some p =>
      mkParams (params_hardMarginsMM p) (params_contentRect p)
               (params_contentSizeMM p) a
  | SetContentZone _ r sz, None =>
      mkParams m_defaultHardMarginsMM r sz m_defaultAlignment
  | SetContentZone _ r sz, Some p =>
      mkParams (params_hardMarginsMM p) (params_contentRect p) sz
               (params_alignment p)
  end.

Definition params_after (k : PageId) (old : option Params) (c : Call)
  : option Params :=
  if (call_page c =? k)%N then Some (write_params c old) else old.

(** What page [k] holds after a sequence of calls on a fresh store,
    followed call by call. *)
Definition params_history (k : PageId) (calls : list Call) : option Params :=
  fold_left (params_after k) calls None.

(** The bundle [getPageParams] builds from an item. *)
Definition item_params (it : Item) : Params :=
  mkParams (hardMarginsMM it) (contentRect it) (contentSizeMM it)
           (alignment it).

(** The pair a node shows to the queries on an order: its page and its
    value on the axis. *)
Definition order_view (f : Item -> float) (l : list Item)
  : list (PageId * float) :=
  map (fun it => (pageId it, f it)) l.

(** ** The order of binary64 numbers *)

(** A number that is not a NaN has a place in a lexicographic order of
    integer triples (class and sign, then exponent, then mantissa):
    [SFcompare] is the comparison of these places. *)
Definition SFrank (f : spec_float) : Z * Z * Z :=
  match f with
  | S754_zero _ => (0, 0, 0)%Z
  | S754_infinity false => (2, 0, 0)%Z
  | S754_infinity true => (-2, 0, 0)%Z
  | S754_finite false m e => (1, e, Zpos m)%Z
  | S754_finite true m e => (-1, - e, Zneg m)%Z
  | S754_nan => (0, 0, 0)%Z
  end.

Definition rank_lt (r1 r2 : Z * Z * Z) : Prop :=
  let '(a1, b1, c1) := r1 in
  let '(a2, b2, c2) := r2 in
  (a1 < a2 \/ (a1 = a2 /\ (b1 < b2 \/ (b1 = b2 /\ c1 < c2))))%Z.

Definition SFis_nan (f : spec_float) : bool :=
  match f with S754_nan => true | _ => false end.

(** ** Sample histories *)

(** One page, written once by [setContentZone]: content 100 x 100 and
    the default margins, so hard size 120 x 110. *)
Definition one_page : list Call :=
  [SetContentZone 1%N QRectF_null (mkQSizeF 100 100)].

(** The scenario of the spec: P1 with margins {10,10,5,5} and content
    (190,280), P2 with no margins and content (300,200). *)
Definition two_pages : list Call :=
  [SetHardMarginsMM 1%N (mkMargins 10 5 10 5);
   SetContentZone 1%N QRectF_null (mkQSizeF 190 280);
   SetHardMarginsMM 2%N (mkMargins 0 0 0 0);
   SetContentZone 2%N QRectF_null (mkQSizeF 300 200)].

(** Pages 1 and 3 get hard width 20; page 3 is widened to 30, then
    page 1 is: the two are tied again, page 3 first. *)
Definition retied_pages : list Call :=
  [SetHardMarginsMM 1%N (mkMargins 10 0 10 0);
   SetHardMarginsMM 3%N (mkMargins 10 0 10 0);
   SetHardMarginsMM 3%N (mkMargins 15 0 15 0);
   SetHardMarginsMM 1%N (mkMargins 15 0 15 0)].

(** A page first written by [setHardMarginsMM]. *)
Definition margins_first : list Call :=
  [SetHardMarginsMM 1%N (mkMargins 10 5 10 5)].

(** The what-if scenario of the spec: A of hard width 100 (content 80
    and the default margins), B of hard width 80. *)
Definition wide_and_narrow : list Call :=
  [SetContentZone 1%N QRectF_null (mkQSizeF 80 0);
   SetContentZone 2%N QRectF_null (mkQSizeF 60 0)].

(** Page 2 is written with a NaN width between pages 1 (hard width 50)
    and 3 (hard width 100), then given the width 10 (hard width 30):
    every stored value is finite again, and the width order is left as
    pages 1, 3, 2. *)
Definition nan_then_finite : list Call :=
  [SetContentZone 1%N QRectF_null (mkQSizeF 30 0);
   SetContentZone 2%N QRectF_null (mkQSizeF nan 0);
   SetContentZone 3%N QRectF_null (mkQSizeF 80 0);
   SetContentZone 2%N QRectF_null (mkQSizeF 10 0)].

(** ** Comparing binary64 numbers *)

Ltac rank_cases :=
  repeat match goal with
         | |- context [Z.compare ?a ?b] => destruct (Z.compare_spec a b)
         | |- context [Pos.compare ?a ?b] => destruct (Pos.compare_spec a b)
         end;
  simpl; split; intros; try reflexivity; try discriminate; try lia.

Lemma SFltb_rank (f1 f2 : spec_float) :
  SFis_nan f1 = false -> SFis_nan f2 = false ->
  SFltb f1 f2 = true <-> rank_lt (SFrank f1) (SFrank f2).
Proof.
  unfold SFltb, rank_lt.
  destruct f1 as [s1|s1| |s1 m1 e1], f2 as [s2|s2| |s2 m2 e2];
    simpl; try discriminate; intros _ _;
    try destruct s1; try destruct s2; simpl;
    try change (PosDef.Pos.compare_cont Eq m1 m2) with (Pos.compare m1 m2);
    rank_cases.
Qed.

Lemma SFeqb_rank (f1 f2 : spec_float) :
  SFis_nan f1 = false -> SFis_nan f2 = false ->
  SFeqb f1 f2 = true <-> SFrank f1 = SFrank f2.
Proof.
  unfold SFeqb.
  destruct f1 as [s1|s1| |s1 m1 e1], f2 as [s2|s2| |s2 m2 e2];
    simpl; try discriminate; intros _ _;
    try destruct s1; try destruct s2; simpl;
    try change (PosDef.Pos.compare_cont Eq m1 m2) with (Pos.compare m1 m2);
    rank_cases; try congruence.
  all: try (match goal with
            | H : (_, _, _) = (_, _, _) |- _ => inversion H; subst
            end; lia).
Qed.

Lemma SFltb_nan_r (f : spec_float) : SFltb f S754_nan = false.
Proof. now destruct f. Qed.

Lemma is_nan_spec (x : float) : is_nan x = SFis_nan (Prim2SF x).
Proof.
  unfold is_nan. rewrite eqb_spec.
  destruct (SFis_nan (Prim2SF x)) eqn:E.
  - destruct (Prim2SF x); try discriminate. reflexivity.
  - apply negb_false_iff. now apply SFeqb_rank.
Qed.

(** [<] is asymmetric on all numbers, NaN included. *)
Lemma ltb_asym (a b : float) :
  (a <? b)%float = true -> (b <? a)%float = false.
Proof.
  rewrite !ltb_spec.
  destruct (SFis_nan (Prim2SF a)) eqn:Ea.
  { destruct (Prim2SF a); try discriminate; simpl; intros; try discriminate;
    now rewrite ?SFltb_nan_r. }
  destruct (SFis_nan (Prim2SF b)) eqn:Eb.
  { destruct (Prim2SF b); try discriminate; intros; reflexivity. }
  intros H. apply SFltb_rank in H; auto.
  destruct (SFltb (Prim2SF b) (Prim2SF a)) eqn:H'; auto.
  apply SFltb_rank in H'; auto.
  unfold rank_lt in *.
  destruct (SFrank (Prim2SF a)) as [[a1 a2] a3],
    (SFrank (Prim2SF b)) as [[b1 b2] b3].
  lia.
Qed.

Lemma ltb_irrefl (a : float) : (a <? a)%float = false.
Proof.
  destruct (a <? a)%float eqn:E; auto.
  pose proof (ltb_asym _ _ E). congruence.
Qed.

(** "Not less than" passes through a middle number that is not a
    NaN. *)
Lemma ltb_neg_trans (a b c : float) :
  is_nan b = false ->
  (a <? b)%float = false -> (b <? c)%float = false ->
  (a <? c)%float = false.
Proof.
  rewrite is_nan_spec, !ltb_spec. intros Hb.
  destruct (SFis_nan (Prim2SF a)) eqn:Ea.
  { destruct (Prim2SF a); try discriminate; intros; reflexivity. }
  destruct (SFis_nan (Prim2SF c)) eqn:Ec.
  { destruct (Prim2SF c); try discriminate; intros; apply SFltb_nan_r. }
  intros H1 H2.
  destruct (SFltb (Prim2SF a) (Prim2SF c)) eqn:H; auto.
  apply SFltb_rank in H; auto.
  assert (N1 : ~ rank_lt (SFrank (Prim2SF a)) (SFrank (Prim2SF b)))
    by (intros R; apply SFltb_rank in R; auto; congruence).
  assert (N2 : ~ rank_lt (SFrank (Prim2SF b)) (SFrank (Prim2SF c)))
    by (intros R; apply SFltb_rank in R; auto; congruence).
  unfold rank_lt in *.
  destruct (SFrank (Prim2SF a)) as [[a1 a2] a3],
    (SFrank (Prim2SF b)) as [[b1 b2] b3],
    (SFrank (Prim2SF c)) as [[c1 c2] c3].
  lia.
Qed.

(** Two numbers, neither a NaN nor less than the other, compare
    equal. *)
Lemma ltb_antisym_eqb (a b : float) :
  is_nan a = false -> is_nan b = false ->
  (a <? b)%float = false -> (b <? a)%float = false ->
  (a =? b)%float = true.
Proof.
  rewrite !is_nan_spec, !ltb_spec, eqb_spec. intros Ha Hb H1 H2.
  apply SFeqb_rank; auto.
  assert (N1 : ~ rank_lt (SFrank (Prim2SF a)) (SFrank (Prim2SF b)))
    by (intros R; apply SFltb_rank in R; auto; congruence).
  assert (N2 : ~ rank_lt (SFrank (Prim2SF b)) (SFrank (Prim2SF a)))
    by (intros R; apply SFltb_rank in R; auto; congruence).
  unfold rank_lt in *.
  destruct (SFrank (Prim2SF a)) as [[a1 a2] a3],
    (SFrank (Prim2SF b)) as [[b1 b2] b3].
  f_equal; [f_equal|]; lia.
Qed.

Lemma sizes_not_nan_width (it : Item) :
  sizes_not_nan it = true -> is_nan (hardWidthMM it) = false.
Proof.
  unfold sizes_not_nan. rewrite andb_true_iff, !negb_true_iff. tauto.
Qed.

Lemma sizes_not_nan_height (it : Item) :
  sizes_not_nan it = true -> is_nan (hardHeightMM it) = false.
Proof.
  unfold sizes_not_nan. rewrite andb_true_iff, !negb_true_iff. tauto.
Qed.

(** ** Lists in order *)

Section SortedLists.

Context {A : Type}.
Variable R : A -> A -> Prop.

Lemma StronglySorted_app_iff (a b : list A) :
  StronglySorted R (a ++ b) <->
  StronglySorted R a /\ StronglySorted R b
  /\ Forall (fun x => Forall (R x) b) a.
Proof.
  induction a as [|x a IH]; simpl.
  - split.
    + intros H. repeat split; auto. constructor.
    + intros (_ & H & _). exact H.
  - split.
    + intros H. apply StronglySorted_inv in H. destruct H as [Hs Hf].
      apply IH in Hs. destruct Hs as (Ha & Hb & Hab).
      apply Forall_app in Hf. destruct Hf as [Hfa Hfb].
      repeat split; auto.
      constructor; auto.
    + intros (Ha & Hb & Hab).
      apply StronglySorted_inv in Ha. destruct Ha as [Ha Hfa].
      inversion Hab; subst.
      constructor.
      * apply IH. repeat split; auto.
      * apply Forall_app. split; auto.
Qed.

Lemma StronglySorted_remove (a : list A) (x : A) (b : list A) :
  StronglySorted R (a ++ x :: b) -> StronglySorted R (a ++ b).
Proof.
  rewrite !StronglySorted_app_iff.
  intros (Ha & Hb & Hab).
  apply StronglySorted_inv in Hb. destruct Hb as [Hb _].
  repeat split; auto.
  eapply Forall_impl; [|exact Hab].
  intros y Hy. inversion Hy; auto.
Qed.

Lemma StronglySorted_insert (a : list A) (v : A) (b : list A) :
  StronglySorted R (a ++ b) ->
  Forall (fun x => R x v) a ->
  Forall (R v) b ->
  StronglySorted R (a ++ v :: b).
Proof.
  rewrite !StronglySorted_app_iff.
  intros (Ha & Hb & Hab) Hav Hvb.
  repeat split; auto.
  - constructor; auto.
  - rewrite Forall_forall in *. intros x Hx.
    constructor; auto.
Qed.

End SortedLists.

Lemma last_cons (c b : Item) (pre : list Item) :
  last (c :: pre) b = last pre c.
Proof.
  revert c b. induction pre as [|d pre IH]; intros c b.
  - reflexivity.
  - change (last (c :: d :: pre) b) with (last (d :: pre) b).
    now rewrite !IH.
Qed.

Lemma last_in (b : Item) (pre : list Item) : In (last pre b) (b :: pre).
Proof.
  revert b. induction pre as [|c pre IH]; intros b.
  - simpl; auto.
  - right. rewrite last_cons. apply IH.
Qed.

Lemma ascending_NoDup (l : list N) : StronglySorted N.lt l -> NoDup l.
Proof.
  induction 1 as [|x l Hs IH Hf]; constructor; auto.
  intros Hin. rewrite Forall_forall in Hf.
  specialize (Hf x Hin). lia.
Qed.

Lemma same_key_same_item (l : list Item) (x y : Item) :
  NoDup (keys l) -> In x l -> In y l -> pageId x = pageId y -> x = y.
Proof.
  unfold keys. induction l as [|z l IH]; simpl; intros Hnd Hx Hy Hk.
  - contradiction.
  - inversion Hnd as [|? ? Hni Hnd']; subst.
    destruct Hx as [Hx|Hx], Hy as [Hy|Hy]; subst; auto.
    + exfalso. apply Hni. rewrite Hk. now apply in_map.
    + exfalso. apply Hni. rewrite <- Hk. now apply in_map.
Qed.

Lemma keys_app (a b : list Item) : keys (a ++ b) = keys a ++ keys b.
Proof. apply map_app. Qed.

Lemma Permutation_keys (a b : list Item) :
  Permutation a b -> Permutation (keys a) (keys b).
Proof. apply Permutation_map. Qed.

Lemma Permutation_others (k : PageId) (a b : list Item) :
  Permutation a b -> Permutation (others k a) (others k b).
Proof.
  unfold others. induction 1; simpl.
  - constructor.
  - destruct (negb (pageId x =? k)%N); auto.
  - destruct (negb (pageId x =? k)%N), (negb (pageId y =? k)%N); auto.
    apply perm_swap.
  - eapply Permutation_trans; eauto.
Qed.

Lemma others_absent (k : PageId) (l : list Item) :
  ~ In k (keys l) -> others k l = l.
Proof.
  unfold others, keys. induction l as [|x l IH]; simpl; intros Hni; auto.
  destruct (N.eqb_spec (pageId x) k) as [E|E]; simpl.
  - exfalso. auto.
  - f_equal. apply IH. auto.
Qed.

Lemma others_In (k : PageId) (l : list Item) (z : Item) :
  In z (others k l) <-> In z l /\ pageId z <> k.
Proof.
  unfold others. rewrite filter_In.
  destruct (N.eqb_spec (pageId z) k); simpl; intuition congruence.
Qed.

Lemma forallb_perm (p : Item -> bool) (a b : list Item) :
  Permutation a b -> forallb p a = true -> forallb p b = true.
Proof.
  intros Hp. rewrite !forallb_forall. intros H x Hx.
  apply H. eapply Permutation_in; [apply Permutation_sym, Hp | exact Hx].
Qed.

(** ** The maximum found by a scan *)

Lemma scan_from_maximum (f : Item -> float) (r : list Item) (acc : float) :
  is_nan acc = false ->
  Forall (fun it => is_nan (f it) = false) r ->
  is_nan (fold_left (fun a it => if (a <? f it)%float then f it else a)
                    r acc) = false
  /\ (fold_left (fun a it => if (a <? f it)%float then f it else a) r acc
      <? acc)%float = false
  /\ (forall y, In y r ->
        (fold_left (fun a it => if (a <? f it)%float then f it else a) r acc
         <? f y)%float = false)
  /\ (fold_left (fun a it => if (a <? f it)%float then f it else a) r acc
      = acc
      \/ exists y, In y r
           /\ fold_left (fun a it => if (a <? f it)%float then f it else a)
                        r acc = f y).
Proof.
  revert acc. induction r as [|x r IH]; simpl; intros acc Hacc Hr.
  - repeat split; auto using ltb_irrefl. intros y [].
  - inversion Hr as [|? ? Hx Hr']; subst.
    destruct (acc <? f x)%float eqn:E.
    + destruct (IH (f x) Hx Hr') as (Hn & Hge & Hall & Hatt).
      repeat split; auto.
      * apply ltb_neg_trans with (b := f x); auto. now apply ltb_asym.
      * intros y [<-|Hy]; auto.
      * right. destruct Hatt as [->|(y & Hy & ->)]; eauto.
    + destruct (IH acc Hacc Hr') as (Hn & Hge & Hall & Hatt).
      repeat split; auto.
      * intros y [<-|Hy]; auto.
        apply ltb_neg_trans with (b := acc); auto.
      * destruct Hatt as [->|(y & Hy & ->)]; eauto.
Qed.

Lemma scan_max_maximum (f : Item -> float) (x : Item) (r : list Item) :
  Forall (fun it => is_nan (f it) = false) (x :: r) ->
  maximum_of f (scan_max f x r) (x :: r).
Proof.
  intros H. inversion H as [|? ? Hx Hr]; subst.
  destruct (scan_from_maximum f r (f x) Hx Hr) as (_ & Hge & Hall & Hatt).
  unfold scan_max. split.
  - destruct Hatt as [->|(y & Hy & ->)].
    + exists x. simpl; auto.
    + exists y. simpl; auto.
  - intros z [<-|Hz]; auto.
Qed.

Lemma first_maximum (f : Item -> float) (h : Item) (t : list Item) :
  StronglySorted (desc f) (h :: t) -> maximum_of f (f h) (h :: t).
Proof.
  intros Hs. apply StronglySorted_inv in Hs. destruct Hs as [_ Hf].
  rewrite Forall_forall in Hf. split.
  - exists h. simpl; auto.
  - intros z [<-|Hz]; [apply ltb_irrefl | now apply Hf].
Qed.

Lemma maximum_perm (f : Item -> float) (m : float) (l l' : list Item) :
  Permutation l l' -> maximum_of f m l -> maximum_of f m l'.
Proof.
  intros Hp [(y & Hy & E) Hall]. split.
  - exists y. split; auto. eapply Permutation_in; eauto.
  - intros z Hz. apply Hall.
    eapply Permutation_in; [apply Permutation_sym, Hp | exact Hz].
Qed.

(** Two maxima of a list without NaN compare equal. *)
Lemma maximum_eqb (f : Item -> float) (m m' : float) (l : list Item) :
  Forall (fun it => is_nan (f it) = false) l ->
  maximum_of f m l -> maximum_of f m' l ->
  (m =? m')%float = true.
Proof.
  rewrite Forall_forall.
  intros Hn [(y & Hy & E) Hall] [(y' & Hy' & E') Hall'].
  apply ltb_antisym_eqb.
  - subst m. auto.
  - subst m'. auto.
  - subst m'. apply Hall. exact Hy'.
  - subst m. apply Hall'. exact Hy.
Qed.

Lemma std_max_cases (a b : float) :
  (std_max a b = b /\ (a <? b)%float = true)
  \/ (std_max a b = a /\ (a <? b)%float = false).
Proof. unfold std_max. destruct (a <? b)%float; auto. Qed.

(** ** Where the ordered indices put a node *)

Lemma split_at_node_app (pos : Position) (l pre post : list Item) :
  split_at_node pos l = (pre, post) -> l = pre ++ post.
Proof.
  revert pre post. induction l as [|x l IH]; simpl; intros pre post H.
  - inversion H. reflexivity.
  - destruct (is_node pos x).
    + inversion H. reflexivity.
    + destruct (split_at_node pos l) as [a b]. inversion H; subst.
      simpl. f_equal. now apply IH.
Qed.

Lemma split_at_node_found (p : PageId) (l pre : list Item) (y : Item)
  (next : list Item) :
  split_at_node (Some p) l = (pre, y :: next) -> pageId y = p.
Proof.
  revert pre. induction l as [|x l IH]; simpl; intros pre H.
  - inversion H.
  - destruct (N.eqb_spec (pageId x) p) as [E|E].
    + inversion H; subst. reflexivity.
    + destruct (split_at_node (Some p) l) as [a b]. inversion H; subst.
      eapply IH. reflexivity.
Qed.

Lemma split_at_node_present (p : PageId) (l : list Item) :
  In p (keys l) ->
  exists pre y next, split_at_node (Some p) l = (pre, y :: next).
Proof.
  unfold keys. induction l as [|x l IH]; simpl; intros Hin.
  - contradiction.
  - destruct (N.eqb_spec (pageId x) p) as [E|E].
    + now exists [], x, l.
    + destruct Hin as [Hin|Hin]; [contradiction|].
      destruct (IH Hin) as (pre & y & next & ->).
      now exists (x :: pre), y, next.
Qed.

(** The first node of a page is found where it was put. *)
Lemma split_at_node_fresh (a : list Item) (v : Item) (b : list Item) :
  ~ In (pageId v) (keys a) ->
  split_at_node (Some (pageId v)) (a ++ v :: b) = (a, v :: b).
Proof.
  unfold keys. induction a as [|x a IH]; simpl; intros Hni.
  - now rewrite N.eqb_refl.
  - destruct (N.eqb_spec (pageId x) (pageId v)) as [E|E].
    + exfalso. auto.
    + rewrite IH; auto.
Qed.

(** The node of a page stored once, with the item it holds. *)
Lemma split_at_node_item (l entries : list Item) (x : Item) :
  NoDup (keys entries) ->
  Permutation l entries ->
  In x entries ->
  exists a b, split_at_node (Some (pageId x)) l = (a, x :: b).
Proof.
  intros Hnd Hp Hx.
  assert (Hkey : In (pageId x) (keys l)).
  { apply (Permutation_in _ (Permutation_sym (Permutation_keys _ _ Hp))).
    now apply in_map. }
  destruct (split_at_node_present _ _ Hkey) as (a & y & b & Es).
  exists a, b. rewrite Es. repeat f_equal.
  apply (same_key_same_item entries); auto.
  - apply (Permutation_in _ Hp).
    apply split_at_node_app in Es. rewrite Es.
    apply in_or_app. simpl; auto.
  - now apply split_at_node_found in Es.
Qed.

Section OrderedNonUniqueFacts.

Variable key : Item -> float.

Lemma in_place_cons (v x c : Item) (a b : list Item) :
  in_place key v (x :: c :: a) b = in_place key v (c :: a) b.
Proof. unfold in_place. now rewrite last_cons. Qed.

Lemma in_place_single (v x : Item) (a b : list Item) :
  in_place key v a b = true ->
  greater (key v) (key x) = false ->
  in_place key v (x :: a) b = true.
Proof.
  intros H Hx. destruct a as [|c a].
  - unfold in_place in *. simpl in *. now rewrite Hx.
  - now rewrite in_place_cons.
Qed.

(** [link_point] puts the node between two parts of the sequence, at
    a place that passes [in_place]. *)
Lemma link_point_place (v : Item) (l : list Item) :
  exists a b,
    l = a ++ b /\ link_point key v l = a ++ v :: b
    /\ in_place key v a b = true.
Proof.
  induction l as [|x l IH]; simpl.
  - now exists [], [].
  - destruct (greater (key v) (key x)) eqn:E.
    + exists [], (x :: l). repeat split.
      unfold in_place, greater in *. simpl.
      now rewrite (ltb_asym _ _ E).
    + destruct IH as (a & b & -> & -> & Hip).
      exists (x :: a), b. repeat split.
      now apply in_place_single.
Qed.

Lemma lower_link_point_place (v : Item) (l : list Item) :
  exists a b,
    l = a ++ b /\ lower_link_point key v l = a ++ v :: b
    /\ in_place key v a b = true.
Proof.
  induction l as [|x l IH]; simpl.
  - now exists [], [].
  - destruct (greater (key x) (key v)) eqn:E.
    + destruct IH as (a & b & -> & -> & Hip).
      exists (x :: a), b. repeat split.
      apply in_place_single; auto.
      unfold greater in *. now apply ltb_asym.
    + exists [], (x :: l). repeat split.
      unfold in_place. simpl. now rewrite E.
Qed.

Lemma hinted_link_place (position : Position) (v : Item) (l : list Item) :
  exists a b,
    l = a ++ b /\ hinted_link key position v l = a ++ v :: b
    /\ in_place key v a b = true.
Proof.
  unfold hinted_link.
  destruct (split_at_node position l) as [pre post] eqn:E.
  apply split_at_node_app in E.
  destruct pre as [|b0 pre], post as [|p post].
  - apply lower_link_point_place.
  - destruct (negb (greater (key p) (key v))) eqn:C.
    + exists [], l. simpl in E. subst l. repeat split.
      unfold in_place. simpl. exact C.
    + apply lower_link_point_place.
  - destruct (negb (greater (key v) (key (last pre b0)))) eqn:C.
    + exists l, []. rewrite app_nil_r in *. subst l. repeat split.
      unfold in_place. now rewrite C.
    + apply link_point_place.
  - destruct (negb (greater (key v) (key (last pre b0)))) eqn:C1.
    + destruct (negb (greater (key p) (key v))) eqn:C2.
      * exists (b0 :: pre), (p :: post). subst l. repeat split.
        unfold in_place. now rewrite C1, C2.
      * apply lower_link_point_place.
    + apply link_point_place.
Qed.

Lemma modify_place (p : PageId) (v : Item) (l pre : list Item) (x : Item)
  (next : list Item) :
  split_at_node (Some p) l = (pre, x :: next) ->
  exists a b,
    pre ++ next = a ++ b /\ modify_ key p v l = a ++ v :: b
    /\ in_place key v a b = true.
Proof.
  intros E. unfold modify_. rewrite E.
  destruct (in_place key v pre next) eqn:Hip.
  - now exists pre, next.
  - apply link_point_place.
Qed.

(** Every element of a descending sequence is at least its last. *)
Lemma last_is_least (b : Item) (pre : list Item) :
  StronglySorted (desc key) (b :: pre) ->
  Forall (fun x => desc key x (last pre b)) (b :: pre).
Proof.
  revert b. induction pre as [|c pre IH]; intros b Hs.
  - simpl. constructor; [apply ltb_irrefl | constructor].
  - apply StronglySorted_inv in Hs. destruct Hs as [Hs Hf].
    specialize (IH c Hs). rewrite last_cons.
    constructor; auto.
    rewrite Forall_forall in Hf. apply Hf. apply last_in.
Qed.

(** A node put at a place that passes [in_place], in a descending
    sequence without NaN, leaves the sequence descending. *)
Lemma place_sorted (v : Item) (a b : list Item) :
  StronglySorted (desc key) (a ++ b) ->
  Forall (fun it => is_nan (key it) = false) (a ++ b) ->
  in_place key v a b = true ->
  StronglySorted (desc key) (a ++ v :: b).
Proof.
  intros Hs Hn Hip.
  pose proof Hs as Hs'.
  apply StronglySorted_app_iff in Hs'. destruct Hs' as (Ha & Hb & _).
  apply Forall_app in Hn. destruct Hn as [Hna Hnb].
  unfold in_place, greater in Hip. apply andb_true_iff in Hip.
  destruct Hip as [Hp Hx].
  apply StronglySorted_insert; auto.
  - destruct a as [|a0 a]; [constructor|].
    apply negb_true_iff in Hp.
    pose proof (last_is_least a0 a Ha) as Hl.
    rewrite Forall_forall in *. intros x Hx'.
    unfold desc in *.
    apply ltb_neg_trans with (b := key (last a a0)); auto.
    apply Hna. apply last_in.
  - destruct b as [|y b]; [constructor|].
    apply negb_true_iff in Hx.
    apply StronglySorted_inv in Hb. destruct Hb as [_ Hf].
    inversion Hnb as [|? ? Hy _]; subst.
    constructor; [exact Hx|].
    eapply Forall_impl; [|exact Hf]. unfold desc. intros z Hz.
    now apply ltb_neg_trans with (b := key y).
Qed.

(** In a descending sequence every node passes [in_place]. *)
Lemma in_place_sorted (pre : list Item) (x : Item) (next : list Item) :
  StronglySorted (desc key) (pre ++ x :: next) ->
  in_place key x pre next = true.
Proof.
  intros Hs. apply StronglySorted_app_iff in Hs.
  destruct Hs as (Ha & Hb & Hab).
  unfold in_place, greater. apply andb_true_iff. split.
  - destruct pre as [|b pre]; auto.
    pose proof (last_in b pre) as Hl.
    rewrite Forall_forall in Hab. specialize (Hab _ Hl).
    inversion Hab as [|? ? Hx _]; subst. unfold desc in Hx.
    now rewrite Hx.
  - destruct next as [|y next]; auto.
    apply StronglySorted_inv in Hb. destruct Hb as [_ Hf].
    inversion Hf as [|? ? Hy _]; subst. unfold desc in Hy.
    now rewrite Hy.
Qed.

(** The front of the sequence after a node is put in place: the old
    front, or the node, and then the old front is not greater. *)
Lemma place_first (v w : Item) (t a b : list Item) :
  w :: t = a ++ b ->
  in_place key v a b = true ->
  exists w' t',
    a ++ v :: b = w' :: t' /\ (key w' <? key w)%float = false.
Proof.
  intros E Hip. destruct a as [|a0 a].
  - simpl in *. subst b. exists v, (w :: t). split; auto.
    unfold in_place, greater in Hip. simpl in Hip.
    now apply negb_true_iff in Hip.
  - simpl in E. inversion E; subst.
    exists a0, (a ++ v :: b). split; auto. apply ltb_irrefl.
Qed.

Lemma modify_unchanged (p : PageId) (x : Item) (l : list Item) :
  node_in_place key p l ->
  (forall pre y next, split_at_node (Some p) l = (pre, y :: next) -> y = x) ->
  modify_ key p x l = l.
Proof.
  intros Hip Hx. unfold modify_.
  destruct (split_at_node (Some p) l) as [pre post] eqn:E.
  destruct post as [|y next]; auto.
  pose proof (Hx _ _ _ eq_refl). subst y.
  rewrite (Hip _ _ _ E).
  now apply split_at_node_app in E.
Qed.

Lemma modify_same_key (p : PageId) (v x : Item) (l pre next : list Item) :
  StronglySorted (desc key) l ->
  split_at_node (Some p) l = (pre, x :: next) ->
  key v = key x ->
  modify_ key p v l = pre ++ v :: next.
Proof.
  intros Hs E Hk. unfold modify_. rewrite E.
  apply split_at_node_app in E. subst l.
  pose proof (in_place_sorted pre x next Hs) as Hip.
  unfold in_place in *. rewrite Hk. now rewrite Hip.
Qed.

End OrderedNonUniqueFacts.

(** ** The first index *)

Lemma lower_bound_app (p : PageId) (l pre post : list Item) :
  lower_bound p l = (pre, post) -> l = pre ++ post.
Proof.
  revert pre post. induction l as [|x l IH]; simpl; intros pre post H.
  - inversion H. reflexivity.
  - destruct (pageId x <? p)%N.
    + destruct (lower_bound p l) as [a b]. inversion H; subst.
      simpl. f_equal. now apply IH.
    + inversion H. reflexivity.
Qed.

Lemma lower_bound_before (p : PageId) (l pre post : list Item) :
  lower_bound p l = (pre, post) ->
  Forall (fun x => (pageId x < p)%N) pre.
Proof.
  revert pre post. induction l as [|x l IH]; simpl; intros pre post H.
  - inversion H. constructor.
  - destruct (N.ltb_spec (pageId x) p).
    + destruct (lower_bound p l) as [a b]. inversion H; subst.
      constructor; auto. eapply IH. reflexivity.
    + inversion H. constructor.
Qed.

Lemma lower_bound_at (p : PageId) (l pre : list Item) (x : Item)
  (post : list Item) :
  lower_bound p l = (pre, x :: post) -> (p <= pageId x)%N.
Proof.
  revert pre. induction l as [|y l IH]; simpl; intros pre H.
  - inversion H.
  - destruct (N.ltb_spec (pageId y) p).
    + destruct (lower_bound p l) as [a b]. inversion H; subst.
      eapply IH. reflexivity.
    + inversion H; subst. assumption.
Qed.

Lemma lower_bound_found (l : list Item) (x : Item) :
  StronglySorted N.lt (keys l) -> In x l ->
  exists pre post, lower_bound (pageId x) l = (pre, x :: post).
Proof.
  unfold keys. induction l as [|y l IH]; simpl; intros Hs Hin.
  - contradiction.
  - apply StronglySorted_inv in Hs. destruct Hs as [Hs Hf].
    destruct (N.ltb_spec (pageId y) (pageId x)) as [Hlt|Hge].
    + destruct Hin as [->|Hin]; [lia|].
      destruct (IH Hs Hin) as (pre & post & ->).
      now exists (y :: pre), post.
    + destruct Hin as [->|Hin].
      * now exists [], l.
      * exfalso. rewrite Forall_forall in Hf.
        specialize (Hf (pageId x) (in_map pageId _ _ Hin)). lia.
Qed.

Lemma find_some (p : PageId) (l : list Item) (x : Item) :
  find p l = Some x -> In x l /\ pageId x = p.
Proof.
  unfold find. destruct (lower_bound p l) as [pre post] eqn:E. simpl.
  destruct post as [|y post]; [discriminate|].
  destruct (N.ltb_spec p (pageId y)) as [Hlt|Hge]; [discriminate|].
  intros H. inversion H; subst.
  pose proof (lower_bound_at _ _ _ _ _ E).
  apply lower_bound_app in E. subst l.
  split; [apply in_or_app; simpl; auto | lia].
Qed.

Lemma find_absent (p : PageId) (l : list Item) :
  ~ In p (keys l) -> find p l = None.
Proof.
  intros Hni. destruct (find p l) as [x|] eqn:E; auto.
  apply find_some in E. destruct E as [Hin <-].
  exfalso. apply Hni. now apply in_map.
Qed.

Lemma find_present (l : list Item) (x : Item) :
  StronglySorted N.lt (keys l) -> In x l -> find (pageId x) l = Some x.
Proof.
  intros Hs Hin. unfold find.
  destruct (lower_bound_found l x Hs Hin) as (pre & post & ->). simpl.
  now rewrite N.ltb_irrefl.
Qed.

Lemma find_iff (l : list Item) (k : PageId) (x : Item) :
  StronglySorted N.lt (keys l) ->
  find k l = Some x <-> (In x l /\ pageId x = k).
Proof.
  intros Hs. split.
  - apply find_some.
  - intros [Hin <-]. now apply find_present.
Qed.

Lemma find_stored (l : list Item) (k : PageId) :
  StronglySorted N.lt (keys l) ->
  In k (keys l) <-> find k l <> None.
Proof.
  intros Hs. split.
  - unfold keys. rewrite in_map_iff. intros (x & <- & Hin).
    now rewrite find_present.
  - destruct (find k l) as [x|] eqn:E; [|congruence].
    intros _. apply find_some in E. destruct E as [Hin <-].
    now apply in_map.
Qed.

(** ** What the container keeps whatever the scalars are *)

Lemma structural_NoDup (s : Impl) : structural s -> NoDup (keys (m_items s)).
Proof. intros H. apply ascending_NoDup, H. Qed.

(** What [upsert] does, by cases on the presence of the key. *)
Lemma upsert_cases (k : PageId) (item : Item) (modifier : Item -> Item)
  (s : Impl) :
  (exists pre post,
      m_items s = pre ++ post
      /\ Forall (fun x => (pageId x < k)%N) pre
      /\ match post with [] => True | x :: _ => (k < pageId x)%N end
      /\ upsert k item modifier s = container_insert pre post item s)
  \/ (exists pre x post,
      m_items s = pre ++ x :: post
      /\ pageId x = k
      /\ upsert k item modifier s = container_modify pre x post modifier s).
Proof.
  unfold upsert. destruct (lower_bound k (m_items s)) as [pre post] eqn:E.
  pose proof (lower_bound_app _ _ _ _ E) as Happ.
  pose proof (lower_bound_before _ _ _ _ E) as Hpre.
  destruct post as [|x post].
  - left. exists pre, []. auto.
  - pose proof (lower_bound_at _ _ _ _ _ E) as Hge.
    destruct (N.ltb_spec k (pageId x)) as [Hlt|Hle].
    + left. exists pre, (x :: post). auto.
    + right. exists pre, x, post. repeat split; auto. lia.
Qed.

(** On the insert path the key was not stored. *)
Lemma insert_path_fresh (k : PageId) (l pre post : list Item) :
  StronglySorted N.lt (keys l) ->
  l = pre ++ post ->
  Forall (fun x => (pageId x < k)%N) pre ->
  match post with [] => True | x :: _ => (k < pageId x)%N end ->
  ~ In k (keys l).
Proof.
  intros Hid E Hpre Hpost. subst l.
  rewrite keys_app, in_app_iff. unfold keys. rewrite !in_map_iff.
  intros [(y & Ey & Hy)|(y & Ey & Hy)].
  - rewrite Forall_forall in Hpre. specialize (Hpre y Hy). lia.
  - rewrite keys_app in Hid.
    apply StronglySorted_app_iff in Hid. destruct Hid as (_ & Hb & _).
    destruct post as [|z post]; [contradiction|]. simpl in Hb.
    apply StronglySorted_inv in Hb. destruct Hb as [_ Hf].
    rewrite Forall_forall in Hf.
    destruct Hy as [->|Hy]; [lia|].
    specialize (Hf (pageId y) (in_map pageId _ _ Hy)). lia.
Qed.

Lemma modify_entries (key : Item -> float) (v x : Item)
  (l pre post : list Item) :
  NoDup (keys (pre ++ x :: post)) ->
  Permutation l (pre ++ x :: post) ->
  Permutation (modify_ key (pageId x) v l) (pre ++ v :: post).
Proof.
  intros Hnd Hp.
  assert (Hx : In x (pre ++ x :: post)) by (apply in_or_app; simpl; auto).
  destruct (split_at_node_item l _ x Hnd Hp Hx) as (a & b & E).
  destruct (modify_place key _ v _ _ _ _ E) as (a' & b' & Eab & -> & _).
  apply split_at_node_app in E. subst l.
  eapply Permutation_trans; [apply Permutation_sym, Permutation_middle|].
  eapply Permutation_trans; [|apply Permutation_middle].
  apply perm_skip. rewrite <- Eab.
  eapply Permutation_app_inv. exact Hp.
Qed.

Lemma hinted_link_perm (key : Item -> float) (position : Position)
  (v : Item) (l : list Item) :
  Permutation (hinted_link key position v l) (v :: l).
Proof.
  destruct (hinted_link_place key position v l) as (a & b & -> & -> & _).
  apply Permutation_sym, Permutation_middle.
Qed.

Lemma container_insert_structural (pre post : list Item) (item : Item)
  (s : Impl) :
  structural s ->
  m_items s = pre ++ post ->
  Forall (fun x => (pageId x < pageId item)%N) pre ->
  match post with
  | [] => True
  | x :: _ => (pageId item < pageId x)%N
  end ->
  structural (container_insert pre post item s).
Proof.
  intros [Hid Hw Hh] E Hpre Hpost. rewrite E in *.
  constructor; simpl.
  - rewrite keys_app in *. simpl.
    apply StronglySorted_insert; auto.
    + unfold keys. rewrite Forall_map. exact Hpre.
    + apply StronglySorted_app_iff in Hid. destruct Hid as (_ & Hb & _).
      destruct post as [|x post]; [constructor|]. simpl in *.
      apply StronglySorted_inv in Hb. destruct Hb as [_ Hf].
      constructor; auto.
      eapply Forall_impl; [|exact Hf]. intros; lia.
  - eapply Permutation_trans; [apply hinted_link_perm|].
    eapply Permutation_trans; [|apply Permutation_middle]. auto.
  - eapply Permutation_trans; [apply hinted_link_perm|].
    eapply Permutation_trans; [|apply Permutation_middle]. auto.
Qed.

Lemma container_modify_structural (pre : list Item) (x : Item)
  (post : list Item) (modifier : Item -> Item) (s : Impl) :
  structural s ->
  m_items s = pre ++ x :: post ->
  pageId (modifier x) = pageId x ->
  structural (container_modify pre x post modifier s).
Proof.
  intros Hc E Hk. pose proof (structural_NoDup s Hc) as Hnd.
  destruct Hc as [Hid Hw Hh]. rewrite E in *.
  constructor; simpl.
  - rewrite keys_app in *. simpl in *. now rewrite Hk.
  - now apply modify_entries.
  - now apply modify_entries.
Qed.

Lemma upsert_structural (k : PageId) (item : Item) (modifier : Item -> Item)
  (s : Impl) :
  pageId item = k ->
  (forall x, pageId (modifier x) = pageId x) ->
  structural s ->
  structural (upsert k item modifier s).
Proof.
  intros Hk Hm Hc.
  destruct (upsert_cases k item modifier s)
    as [(pre & post & E & Hpre & Hpost & ->)|(pre & x & post & E & Hx & ->)].
  - apply container_insert_structural; auto; now rewrite Hk.
  - apply container_modify_structural; auto.
Qed.

Lemma upsert_keys (k : PageId) (item : Item) (modifier : Item -> Item)
  (s : Impl) (j : PageId) :
  pageId item = k ->
  (forall x, pageId (modifier x) = pageId x) ->
  In j (keys (m_items (upsert k item modifier s))) ->
  j = k \/ In j (keys (m_items s)).
Proof.
  intros Hk Hm.
  destruct (upsert_cases k item modifier s)
    as [(pre & post & E & _ & _ & ->)|(pre & x & post & E & Hx & ->)];
    simpl; rewrite E, !keys_app; simpl; rewrite !in_app_iff; simpl.
  - intuition congruence.
  - rewrite Hm. intuition.
Qed.

Lemma upsert_adds_key (k : PageId) (item : Item) (modifier : Item -> Item)
  (s : Impl) (j : PageId) :
  pageId item = k ->
  (forall x, pageId (modifier x) = pageId x) ->
  j = k \/ In j (keys (m_items s)) ->
  In j (keys (m_items (upsert k item modifier s))).
Proof.
  intros Hk Hm.
  destruct (upsert_cases k item modifier s)
    as [(pre & post & E & _ & _ & ->)|(pre & x & post & E & Hx & ->)];
    simpl; rewrite E, !keys_app; simpl; rewrite !in_app_iff; simpl.
  - intuition congruence.
  - rewrite Hm. intuition congruence.
Qed.

(** After [upsert] the key holds either the new item (the key was
    absent) or the modified old one. *)
Lemma upsert_stored (k : PageId) (item : Item) (modifier : Item -> Item)
  (s : Impl) :
  pageId item = k ->
  (forall x, pageId (modifier x) = pageId x) ->
  structural s ->
  exists it,
    find k (m_items (upsert k item modifier s)) = Some it
    /\ ((find k (m_items s) = None /\ it = item)
        \/ exists x, find k (m_items s) = Some x /\ it = modifier x).
Proof.
  intros Hk Hm Hc.
  pose proof (upsert_structural k item modifier s Hk Hm Hc) as Hc'.
  destruct (upsert_cases k item modifier s)
    as [(pre & post & E & Hpre & Hpost & Eu)|(pre & x & post & E & Hx & Eu)];
    rewrite Eu in *.
  - exists item. split.
    + rewrite <- Hk at 1. apply find_present; [apply Hc'|].
      simpl. apply in_or_app. simpl; auto.
    + left. split; auto. apply find_absent.
      eapply insert_path_fresh; eauto. apply Hc.
  - exists (modifier x). split.
    + rewrite <- Hx, <- (Hm x). apply find_present; [apply Hc'|].
      simpl. apply in_or_app. simpl; auto.
    + right. exists x. split; auto.
      rewrite <- Hx. apply find_present; [apply Hc|].
      rewrite E. apply in_or_app. simpl; auto.
Qed.

Lemma upsert_present (k : PageId) (item x : Item) (modifier : Item -> Item)
  (s : Impl) :
  structural s ->
  find k (m_items s) = Some x ->
  exists pre post,
    m_items s = pre ++ x :: post
    /\ upsert k item modifier s = container_modify pre x post modifier s.
Proof.
  intros Hc Hf. apply find_some in Hf. destruct Hf as [Hin Hk].
  destruct (lower_bound_found _ _ (ids_ascending s Hc) Hin)
    as (pre & post & E).
  exists pre, post. split.
  - now apply lower_bound_app in E.
  - unfold upsert. now rewrite <- Hk, E, N.ltb_irrefl.
Qed.

Lemma upsert_In_other (k : PageId) (item : Item) (modifier : Item -> Item)
  (s : Impl) (y : Item) :
  pageId item = k ->
  (forall x, pageId (modifier x) = pageId x) ->
  pageId y <> k ->
  In y (m_items (upsert k item modifier s)) <-> In y (m_items s).
Proof.
  intros Hk Hm Hy.
  destruct (upsert_cases k item modifier s)
    as [(pre & post & E & _ & _ & ->)|(pre & x & post & E & Hx & ->)];
    simpl; rewrite E, !in_app_iff; simpl.
  - split; [intros [H|[H|H]] | intros [H|H]]; auto.
    subst y. contradiction.
  - split; (intros [H|[H|H]]; auto; subst y; exfalso; apply Hy).
    + now rewrite Hm.
    + assumption.
Qed.

Lemma upsert_find_other (k j : PageId) (item : Item)
  (modifier : Item -> Item) (s : Impl) :
  pageId item = k ->
  (forall x, pageId (modifier x) = pageId x) ->
  structural s ->
  j <> k ->
  find j (m_items (upsert k item modifier s)) = find j (m_items s).
Proof.
  intros Hk Hm Hc Hj.
  pose proof (upsert_structural k item modifier s Hk Hm Hc) as Hc'.
  destruct (find j (m_items s)) as [x|] eqn:E.
  - apply find_some in E. destruct E as [Hin Hx].
    apply find_iff; [apply Hc'|]. split; auto.
    apply upsert_In_other; auto. congruence.
  - destruct (find j (m_items (upsert k item modifier s))) as [y|] eqn:E';
      auto.
    apply find_some in E'. destruct E' as [Hin Hy].
    apply upsert_In_other in Hin; auto; [|congruence].
    rewrite <- Hy, find_present in E; [discriminate|apply Hc|assumption].
Qed.

Lemma upsert_others (k : PageId) (item : Item) (modifier : Item -> Item)
  (s : Impl) :
  pageId item = k ->
  (forall x, pageId (modifier x) = pageId x) ->
  others k (m_items (upsert k item modifier s)) = others k (m_items s).
Proof.
  intros Hk Hm.
  destruct (upsert_cases k item modifier s)
    as [(pre & post & E & _ & _ & ->)|(pre & x & post & E & Hx & ->)];
    simpl; rewrite E; unfold others; rewrite !filter_app; simpl.
  - now rewrite Hk, N.eqb_refl.
  - now rewrite Hm, Hx, N.eqb_refl.
Qed.

(** After [upsert] the node of the page written passes [in_place] in
    an order: it was linked at such a place, or left where it passed
    the test. *)
Lemma upsert_order_in_place (key : Item -> float) (k : PageId) (v : Item)
  (l l' a b : list Item) :
  pageId v = k ->
  ~ In k (keys l) ->
  l = a ++ b ->
  l' = a ++ v :: b ->
  in_place key v a b = true ->
  node_in_place key k l'.
Proof.
  intros Hk Hni -> -> Hip pre x next E.
  rewrite <- Hk in E. rewrite split_at_node_fresh in E.
  - inversion E; subst. exact Hip.
  - rewrite Hk. intros H. apply Hni. rewrite keys_app, in_app_iff. auto.
Qed.

Lemma keys_without (l pre : list Item) (x : Item) (next : list Item) :
  NoDup (keys l) -> l = pre ++ x :: next ->
  ~ In (pageId x) (keys (pre ++ next)).
Proof.
  intros Hnd ->. rewrite keys_app in *. simpl in Hnd.
  apply NoDup_remove_2 in Hnd. exact Hnd.
Qed.

Lemma upsert_in_place (k : PageId) (item : Item) (modifier : Item -> Item)
  (s : Impl) :
  pageId item = k ->
  (forall x, pageId (modifier x) = pageId x) ->
  structural s ->
  node_in_place hardWidthMM k (m_descWidthOrder (upsert k item modifier s))
  /\ node_in_place hardHeightMM k
       (m_descHeightOrder (upsert k item modifier s)).
Proof.
  intros Hk Hm Hc. pose proof (structural_NoDup s Hc) as Hnd.
  destruct Hc as [Hid Hw Hh].
  assert (Hkeys : forall order, Permutation order (m_items s) ->
                    NoDup (keys order)
                    /\ (forall j, In j (keys order)
                                  -> In j (keys (m_items s)))).
  { intros order Hp. apply Permutation_keys in Hp. split.
    - apply (Permutation_NoDup (Permutation_sym Hp) Hnd).
    - intros j. now apply Permutation_in. }
  destruct (upsert_cases k item modifier s)
    as [(pre & post & E & Hpre & Hpost & ->)|(pre & x & post & E & Hx & ->)];
    simpl.
  - pose proof (insert_path_fresh k _ pre post Hid E Hpre Hpost) as Hfresh.
    split.
    + destruct (hinted_link_place hardWidthMM
                  (option_map pageId (head post)) item (m_descWidthOrder s))
        as (a & b & Eab & El & Hip).
      apply (upsert_order_in_place hardWidthMM k item
               (m_descWidthOrder s) _ a b); auto.
      intros H. apply Hfresh. now apply (proj2 (Hkeys _ Hw)).
    + destruct (hinted_link_place hardHeightMM
                  (option_map pageId (head post)) item (m_descHeightOrder s))
        as (a & b & Eab & El & Hip).
      apply (upsert_order_in_place hardHeightMM k item
               (m_descHeightOrder s) _ a b); auto.
      intros H. apply Hfresh. now apply (proj2 (Hkeys _ Hh)).
  - assert (Hin : In x (m_items s))
      by (rewrite E; apply in_or_app; simpl; auto).
    split.
    + destruct (split_at_node_item _ _ x Hnd Hw Hin) as (a0 & b0 & Es).
      destruct (modify_place hardWidthMM _ (modifier x) _ _ _ _ Es)
        as (a & b & Eab & El & Hip).
      apply (upsert_order_in_place hardWidthMM k (modifier x)
               (a0 ++ b0) _ a b); auto.
      * now rewrite Hm.
      * rewrite <- Hx.
        apply (keys_without (m_descWidthOrder s)).
        -- apply (Hkeys _ Hw).
        -- now apply split_at_node_app in Es.
    + destruct (split_at_node_item _ _ x Hnd Hh Hin) as (a0 & b0 & Es).
      destruct (modify_place hardHeightMM _ (modifier x) _ _ _ _ Es)
        as (a & b & Eab & El & Hip).
      apply (upsert_order_in_place hardHeightMM k (modifier x)
               (a0 ++ b0) _ a b); auto.
      * now rewrite Hm.
      * rewrite <- Hx.
        apply (keys_without (m_descHeightOrder s)).
        -- apply (Hkeys _ Hh).
        -- now apply split_at_node_app in Es.
Qed.

(** ** A write that changes nothing *)

Lemma upsert_fixed (k : PageId) (item it : Item) (modifier : Item -> Item)
  (s : Impl) :
  structural s ->
  find k (m_items s) = Some it ->
  modifier it = it ->
  node_in_place hardWidthMM k (m_descWidthOrder s) ->
  node_in_place hardHeightMM k (m_descHeightOrder s) ->
  upsert k item modifier s = s.
Proof.
  intros Hc Hf Ev Pw Ph. pose proof (structural_NoDup s Hc) as Hnd.
  destruct (upsert_present k item it modifier s Hc Hf)
    as (pre & post & E & ->).
  apply find_some in Hf. destruct Hf as [Hin Hk].
  destruct Hc as [Hid Hw Hh].
  unfold container_modify. rewrite Ev, Hk.
  assert (Hsame : forall order,
             Permutation order (m_items s) ->
             forall a y b, split_at_node (Some k) order = (a, y :: b) ->
                           y = it).
  { intros order Hp a y b Es.
    destruct (split_at_node_item _ _ it Hnd Hp Hin) as (a' & b' & Es').
    rewrite Hk in Es'. congruence. }
  rewrite (modify_unchanged hardWidthMM k it _ Pw (Hsame _ Hw)).
  rewrite (modify_unchanged hardHeightMM k it _ Ph (Hsame _ Hh)).
  rewrite <- E. now destruct s.
Qed.

Lemma upsert_twice (k : PageId) (item : Item) (modifier : Item -> Item)
  (s : Impl) :
  pageId item = k ->
  (forall x, pageId (modifier x) = pageId x) ->
  modifier item = item ->
  (forall x, modifier (modifier x) = modifier x) ->
  structural s ->
  upsert k item modifier (upsert k item modifier s)
  = upsert k item modifier s.
Proof.
  intros Hk Hm Hi Hmm Hc.
  destruct (upsert_stored k item modifier s Hk Hm Hc) as (it & Hf & Hit).
  destruct (upsert_in_place k item modifier s Hk Hm Hc) as [Pw Ph].
  apply upsert_fixed with (it := it); auto.
  - now apply upsert_structural.
  - destruct Hit as [[_ ->]|(x & _ & ->)]; auto.
Qed.

(** ** Stores reached by calls *)

Lemma Impl_new_structural : structural Impl_new.
Proof. constructor; simpl; constructor. Qed.

Lemma perform_structural (s : Impl) (c : Call) :
  structural s -> structural (perform s c).
Proof.
  destruct c; simpl; unfold store_after; simpl;
    intros; apply upsert_structural; auto.
Qed.

Lemma fold_perform_structural (calls : list Call) (s : Impl) :
  structural s -> structural (fold_left perform calls s).
Proof.
  revert s. induction calls as [|c calls IH]; simpl; auto.
  intros s Hs. apply IH. now apply perform_structural.
Qed.

Lemma reached_structural (calls : list Call) : structural (reached calls).
Proof. apply fold_perform_structural, Impl_new_structural. Qed.

Lemma perform_keys (s : Impl) (c : Call) (j : PageId) :
  In j (keys (m_items (perform s c))) ->
  j = call_page c \/ In j (keys (m_items s)).
Proof.
  destruct c; simpl; unfold store_after; simpl;
    apply upsert_keys; auto.
Qed.

Lemma fold_perform_keys (calls : list Call) (s : Impl) (j : PageId) :
  In j (keys (m_items (fold_left perform calls s))) ->
  In j (map call_page calls) \/ In j (keys (m_items s)).
Proof.
  revert s. induction calls as [|c calls IH]; simpl; auto.
  intros s H. apply IH in H. destruct H as [H|H]; auto.
  apply perform_keys in H. destruct H as [H|H]; auto.
Qed.

Lemma reached_keys (calls : list Call) (j : PageId) :
  In j (keys (m_items (reached calls))) -> In j (map call_page calls).
Proof.
  intros H. apply fold_perform_keys in H. destruct H as [H|H]; auto.
  contradiction.
Qed.

Lemma perform_adds_key (s : Impl) (c : Call) (j : PageId) :
  j = call_page c \/ In j (keys (m_items s)) ->
  In j (keys (m_items (perform s c))).
Proof.
  destruct c; simpl; unfold store_after; simpl;
    apply upsert_adds_key; auto.
Qed.

Lemma fold_perform_adds_keys (calls : list Call) (s : Impl) (j : PageId) :
  In j (map call_page calls) \/ In j (keys (m_items s)) ->
  In j (keys (m_items (fold_left perform calls s))).
Proof.
  revert s. induction calls as [|c calls IH]; simpl; intros s H.
  - destruct H as [[]|H]; exact H.
  - apply IH. destruct H as [[H|H]|H]; auto.
    + right. apply perform_adds_key. auto.
    + right. apply perform_adds_key. auto.
Qed.

(** In a store the indices are empty together. *)
Lemma structural_first (s : Impl) (x : Item) (r : list Item) :
  structural s -> m_items s = x :: r ->
  exists w tw h th,
    m_descWidthOrder s = w :: tw /\ m_descHeightOrder s = h :: th.
Proof.
  intros [_ Hw Hh] E. rewrite E in *.
  destruct (m_descWidthOrder s) as [|w tw].
  - apply Permutation_nil in Hw. discriminate.
  - destruct (m_descHeightOrder s) as [|h th].
    + apply Permutation_nil in Hh. discriminate.
    + now exists w, tw, h, th.
Qed.

(** ** What the container keeps as long as no hard size is a NaN *)

Lemma no_nan_order (f : Item -> float) (order entries : list Item) :
  (forall it, sizes_not_nan it = true -> is_nan (f it) = false) ->
  Permutation order entries ->
  forallb sizes_not_nan entries = true ->
  Forall (fun it => is_nan (f it) = false) order.
Proof.
  intros Hf Hp Hn. rewrite forallb_forall in Hn.
  rewrite Forall_forall. intros it Hit.
  apply Hf, Hn. eapply Permutation_in; eauto.
Qed.

Lemma Forall_without (P : Item -> Prop) (pre : list Item) (x : Item)
  (next : list Item) :
  Forall P (pre ++ x :: next) -> Forall P (pre ++ next).
Proof.
  rewrite !Forall_app. intros [Ha Hb]. inversion Hb; auto.
Qed.

Lemma upsert_ordered (k : PageId) (item : Item) (modifier : Item -> Item)
  (s : Impl) :
  pageId item = k ->
  (forall x, pageId (modifier x) = pageId x) ->
  ordered s ->
  forallb sizes_not_nan (m_items (upsert k item modifier s)) = true ->
  ordered (upsert k item modifier s).
Proof.
  intros Hk Hm [Hc Hn Hsw Hsh] Hn'.
  pose proof (upsert_structural k item modifier s Hk Hm Hc) as Hc'.
  pose proof (structural_NoDup s Hc) as Hnd.
  constructor; auto.
  - pose proof (no_nan_order hardWidthMM _ _ sizes_not_nan_width
                  (width_entries s Hc) Hn) as Hnw.
    destruct (upsert_cases k item modifier s)
      as [(pre & post & E & _ & _ & ->)|(pre & x & post & E & Hx & ->)];
      simpl.
    + destruct (hinted_link_place hardWidthMM
                  (option_map pageId (head post)) item (m_descWidthOrder s))
        as (a & b & Eab & -> & Hip).
      rewrite Eab in *. now apply place_sorted.
    + assert (Hin : In x (m_items s))
        by (rewrite E; apply in_or_app; simpl; auto).
      destruct (split_at_node_item _ _ x Hnd (width_entries s Hc) Hin)
        as (a0 & b0 & Es).
      destruct (modify_place hardWidthMM _ (modifier x) _ _ _ _ Es)
        as (a & b & Eab & -> & Hip).
      apply split_at_node_app in Es. rewrite Es in *.
      apply place_sorted; auto; rewrite <- Eab.
      * eapply StronglySorted_remove; eauto.
      * eapply Forall_without; eauto.
  - pose proof (no_nan_order hardHeightMM _ _ sizes_not_nan_height
                  (height_entries s Hc) Hn) as Hnh.
    destruct (upsert_cases k item modifier s)
      as [(pre & post & E & _ & _ & ->)|(pre & x & post & E & Hx & ->)];
      simpl.
    + destruct (hinted_link_place hardHeightMM
                  (option_map pageId (head post)) item (m_descHeightOrder s))
        as (a & b & Eab & -> & Hip).
      rewrite Eab in *. now apply place_sorted.
    + assert (Hin : In x (m_items s))
        by (rewrite E; apply in_or_app; simpl; auto).
      destruct (split_at_node_item _ _ x Hnd (height_entries s Hc) Hin)
        as (a0 & b0 & Es).
      destruct (modify_place hardHeightMM _ (modifier x) _ _ _ _ Es)
        as (a & b & Eab & -> & Hip).
      apply split_at_node_app in Es. rewrite Es in *.
      apply place_sorted; auto; rewrite <- Eab.
      * eapply StronglySorted_remove; eauto.
      * eapply Forall_without; eauto.
Qed.

Lemma Impl_new_ordered : ordered Impl_new.
Proof.
  constructor; simpl; try constructor; auto using Impl_new_structural.
  apply Impl_new_structural.
Qed.

Lemma perform_ordered (s : Impl) (c : Call) :
  ordered s ->
  forallb sizes_not_nan (m_items (perform s c)) = true ->
  ordered (perform s c).
Proof.
  destruct c; simpl; unfold store_after; simpl;
    intros; apply upsert_ordered; auto.
Qed.

Lemma fold_perform_ordered (calls : list Call) (s : Impl) :
  ordered s -> never_nan_from s calls = true ->
  ordered (fold_left perform calls s).
Proof.
  revert s. induction calls as [|c calls IH]; simpl; auto.
  intros s Hs Hn. apply andb_true_iff in Hn. destruct Hn as [Hn1 Hn2].
  apply IH; auto. now apply perform_ordered.
Qed.

Lemma reached_ordered (calls : list Call) :
  never_nan calls = true -> ordered (reached calls).
Proof. apply fold_perform_ordered, Impl_new_ordered. Qed.

Lemma never_nan_from_app (s : Impl) (calls : list Call) (c : Call) :
  never_nan_from s (calls ++ [c]) = true ->
  never_nan_from s calls = true
  /\ forallb sizes_not_nan
       (m_items (perform (fold_left perform calls s) c)) = true.
Proof.
  revert s. induction calls as [|d calls IH]; simpl; intros s H.
  - apply andb_true_iff in H. tauto.
  - apply andb_true_iff in H. destruct H as [H1 H2].
    destruct (IH _ H2) as [H3 H4]. rewrite H1, H3. auto.
Qed.

(** ** The queries read the front of the orders *)

Lemma queries_on_first (s : Impl) (x : Item) (r : list Item)
  (w : Item) (tw : list Item) (h : Item) (th : list Item) :
  m_items s = x :: r ->
  m_descWidthOrder s = w :: tw ->
  m_descHeightOrder s = h :: th ->
  result getAggregateHardSizeMM s = mkQSizeF (hardWidthMM w) (hardHeightMM h)
  /\ result findWidestPage s = pageId w
  /\ result findTallestPage s = pageId h
  /\ forall k sz,
       result (getAggregateHardSizeMM_for k sz) s
       = mkQSizeF (aggregate_axis hardWidthMM (w :: tw) k (width sz))
                  (aggregate_axis hardHeightMM (h :: th) k (height sz)).
Proof.
  intros E Ew Eh.
  unfold result, getAggregateHardSizeMM, findWidestPage, findTallestPage,
    getAggregateHardSizeMM_for.
  rewrite E, Ew, Eh. repeat split.
Qed.

Lemma QSizeF_eq (a b : QSizeF) :
  width a = width b -> height a = height b -> a = b.
Proof. destruct a, b; simpl; intros; subst; reflexivity. Qed.

Lemma axis_other (f : Item -> float) (w : Item) (rest : list Item)
  (k : PageId) (hard : float) :
  pageId w <> k -> aggregate_axis f (w :: rest) k hard = f w.
Proof.
  intros Hk. simpl.
  now destruct (N.eqb_spec (pageId w) k) as [E|E]; [contradiction|].
Qed.

(** The axis of the what-if query when the front of the order is the
    page asked about: the runner-up is the next entry, an entry of
    another page, and in a descending order none of the other pages
    is greater. *)
Lemma axis_key (f : Item -> float) (w : Item) (rest entries : list Item)
  (k : PageId) (hard : float) :
  Permutation (w :: rest) entries ->
  NoDup (keys entries) ->
  pageId w = k ->
  (others k entries = [] /\ aggregate_axis f (w :: rest) k hard = hard)
  \/ exists y,
       In y entries /\ pageId y <> k
       /\ aggregate_axis f (w :: rest) k hard = std_max hard (f y)
       /\ (StronglySorted (desc f) (w :: rest) ->
           forall z, In z entries -> pageId z <> k ->
                     (f y <? f z)%float = false).
Proof.
  intros Hp Hnd Hk. simpl. rewrite <- Hk, N.eqb_refl. simpl.
  assert (Hrest : Permutation rest (others (pageId w) entries)).
  { eapply Permutation_trans;
      [|apply Permutation_others; exact Hp].
    unfold others at 1. simpl. rewrite N.eqb_refl. simpl.
    fold (others (pageId w) rest). rewrite others_absent; auto.
    apply Permutation_sym, Permutation_keys in Hp.
    apply (Permutation_NoDup Hp) in Hnd. simpl in Hnd.
    now inversion Hnd. }
  destruct rest as [|y rest'].
  - left. apply Permutation_nil in Hrest. auto.
  - right. exists y.
    assert (Hy : In y (others (pageId w) entries))
      by (apply (Permutation_in _ Hrest); simpl; auto).
    apply others_In in Hy. destruct Hy as [Hy1 Hy2].
    repeat split; auto.
    intros Hs z Hz Hzk.
    assert (Hz' : In z (y :: rest')).
    { apply (Permutation_in _ (Permutation_sym Hrest)).
      now apply others_In. }
    apply StronglySorted_inv in Hs. destruct Hs as [Hs _].
    apply StronglySorted_inv in Hs. destruct Hs as [_ Hf].
    rewrite Forall_forall in Hf.
    destruct Hz' as [<-|Hz']; [apply ltb_irrefl | now apply Hf].
Qed.

(** The front of a descending order compares equal to the maximum a
    scan finds over the entries, when none is a NaN. *)
Lemma first_eqb_scan (f : Item -> float) (w : Item) (tw : list Item)
  (x : Item) (r : list Item) :
  StronglySorted (desc f) (w :: tw) ->
  Permutation (w :: tw) (x :: r) ->
  Forall (fun it => is_nan (f it) = false) (x :: r) ->
  (f w =? scan_max f x r)%float = true.
Proof.
  intros Hs Hp Hn.
  apply maximum_eqb with (f := f) (l := x :: r); auto.
  - eapply maximum_perm; [exact Hp|]. now apply first_maximum.
  - now apply scan_max_maximum.
Qed.

Lemma no_nan_entries (f : Item -> float) (entries : list Item) :
  (forall it, sizes_not_nan it = true -> is_nan (f it) = false) ->
  forallb sizes_not_nan entries = true ->
  Forall (fun it => is_nan (f it) = false) entries.
Proof.
  intros Hf Hn. apply (no_nan_order f entries entries); auto.
Qed.

Lemma aggregate_ordered (s : Impl) :
  ordered s -> m_items s <> [] ->
  (width (result getAggregateHardSizeMM s)
   =? width (reference_aggregate (m_items s)))%float = true
  /\ (height (result getAggregateHardSizeMM s)
      =? height (reference_aggregate (m_items s)))%float = true.
Proof.
  intros [Hc Hn Hsw Hsh] Hne.
  destruct (m_items s) as [|x r] eqn:E; [contradiction|].
  destruct (structural_first s x r Hc E) as (w & tw & h & th & Ew & Eh).
  destruct (queries_on_first s x r w tw h th E Ew Eh) as (-> & _).
  pose proof (width_entries s Hc) as Hw.
  pose proof (height_entries s Hc) as Hh.
  rewrite E, ?Ew, ?Eh in *. simpl. split.
  - change (scan_max reference_hard_width x r)
      with (scan_max hardWidthMM x r).
    apply first_eqb_scan with (tw := tw); auto.
    apply no_nan_entries; auto using sizes_not_nan_width.
  - change (scan_max reference_hard_height x r)
      with (scan_max hardHeightMM x r).
    apply first_eqb_scan with (tw := th); auto.
    apply no_nan_entries; auto using sizes_not_nan_height.
Qed.

Lemma extremal_ordered (s : Impl) :
  ordered s -> m_items s <> [] ->
  (exists it, In it (m_items s)
              /\ pageId it = result findWidestPage s
              /\ forall x, In x (m_items s) ->
                           (hardWidthMM it <? hardWidthMM x)%float = false)
  /\ (exists it, In it (m_items s)
                 /\ pageId it = result findTallestPage s
                 /\ forall x, In x (m_items s) ->
                              (hardHeightMM it <? hardHeightMM x)%float
                              = false).
Proof.
  intros [Hc Hn Hsw Hsh] Hne.
  destruct (m_items s) as [|x r] eqn:E; [contradiction|].
  destruct (structural_first s x r Hc E) as (w & tw & h & th & Ew & Eh).
  destruct (queries_on_first s x r w tw h th E Ew Eh) as (_ & -> & -> & _).
  pose proof (width_entries s Hc) as Hw.
  pose proof (height_entries s Hc) as Hh.
  rewrite E, ?Ew, ?Eh in *. split.
  - exists w.
    destruct (maximum_perm _ _ _ _ Hw (first_maximum hardWidthMM w tw Hsw))
      as [_ Hall].
    repeat split; auto. apply (Permutation_in _ Hw). simpl; auto.
  - exists h.
    destruct (maximum_perm _ _ _ _ Hh (first_maximum hardHeightMM h th Hsh))
      as [_ Hall].
    repeat split; auto. apply (Permutation_in _ Hh). simpl; auto.
Qed.

Lemma first_is_stored (s : Impl) :
  structural s -> m_items s <> [] ->
  In (result findWidestPage s) (keys (m_items s))
  /\ In (result findTallestPage s) (keys (m_items s)).
Proof.
  intros Hc Hne.
  destruct (m_items s) as [|x r] eqn:E; [contradiction|].
  destruct (structural_first s x r Hc E) as (w & tw & h & th & Ew & Eh).
  destruct (queries_on_first s x r w tw h th E Ew Eh) as (_ & -> & -> & _).
  pose proof (width_entries s Hc) as Hw.
  pose proof (height_entries s Hc) as Hh.
  rewrite E, ?Ew, ?Eh in *.
  split; apply in_map.
  - apply (Permutation_in _ Hw). simpl; auto.
  - apply (Permutation_in _ Hh). simpl; auto.
Qed.

Lemma one_entry_per_key_perm (order entries : list Item) :
  NoDup (keys entries) -> Permutation order entries ->
  one_entry_per_key order entries.
Proof.
  intros Hnd Hp. apply Permutation_keys in Hp. split.
  - apply (Permutation_NoDup (Permutation_sym Hp) Hnd).
  - intros k. split; apply Permutation_in; auto using Permutation_sym.
Qed.

Lemma setHardMarginsMM_twice (s : Impl) (k : PageId) (m : Margins) :
  structural s ->
  store_after (setHardMarginsMM k m)
              (store_after (setHardMarginsMM k m) s)
  = store_after (setHardMarginsMM k m) s.
Proof.
  intros Hc. unfold store_after, setHardMarginsMM. simpl.
  apply upsert_twice; auto.
Qed.

(** What [setContentZone] leaves under the page it writes. *)
Lemma setContentZone_entry (s : Impl) (k : PageId) (r : QRectF)
  (sz : QSizeF) :
  structural s ->
  exists p,
    result (getPageParams k) (store_after (setContentZone k r sz) s) = Some p
    /\ params_contentSizeMM p = sz
    /\ (find k (m_items s) = None -> params_contentRect p = r)
    /\ (forall x, find k (m_items s) = Some x ->
                  params_contentRect p = contentRect x).
Proof.
  intros Hc. unfold store_after, setContentZone, result, getPageParams.
  simpl.
  set (item := mkItem k m_defaultHardMarginsMM r sz m_defaultAlignment).
  destruct (upsert_stored k item (ModifyContentSize sz) s
              eq_refl (fun _ => eq_refl) Hc) as (it & Hf & Hit).
  rewrite Hf. simpl. eexists. split; [reflexivity|]. simpl.
  destruct Hit as [[Hn ->]|(x & Hx & ->)]; simpl.
  - repeat split; auto. intros x Hx. congruence.
  - repeat split; auto.
    + intros Hn. congruence.
    + intros y Hy. congruence.
Qed.

(** ** Properties of the store *)

(** C1, as the claim words it, fails: after [nan_then_finite] every
    stored hard width is finite (50, 30 and 100), the width order is
    left as 50, 100, 30, and [getAggregateHardSizeMM()] returns the
    width 50 where the scan over the entries finds 100. *)
Lemma aggregate_misses_maximum_after_nan :
  result getAggregateHardSizeMM (reached nan_then_finite) = mkQSizeF 50 10
  /\ reference_aggregate (m_items (reached nan_then_finite))
     = mkQSizeF 100 10
  /\ result getAggregateHardSizeMM (reached nan_then_finite)
     <> reference_aggregate (m_items (reached nan_then_finite)).
Proof.
  split; [reflexivity|]. split; [reflexivity|].
  intros H.
  apply (f_equal (fun q => (width q =? 100)%float)) in H.
  vm_compute in H. discriminate H.
Qed.

(** C1, amended.  In every non-empty store reached by a sequence of
    calls none of which left a stored entry with a NaN hard width or
    hard height, [getAggregateHardSizeMM()] returns a pair whose width
    and height compare equal (the [==] of doubles) to the largest
    contentSize.width + margins.left + margins.right and the largest
    contentSize.height + margins.top + margins.bottom over all stored
    entries, as a linear scan over the entries finds them. *)
Theorem aggregate_is_linear_scan (calls : list Call) :
  never_nan calls = true ->
  m_items (reached calls) <> [] ->
  (width (result getAggregateHardSizeMM (reached calls))
   =? width (reference_aggregate (m_items (reached calls))))%float = true
  /\ (height (result getAggregateHardSizeMM (reached calls))
      =? height (reference_aggregate (m_items (reached calls))))%float
     = true.
Proof.
  intros Hn. apply aggregate_ordered. now apply reached_ordered.
Qed.

Lemma aggregate_is_linear_scan_witness :
  never_nan two_pages = true
  /\ m_items (reached two_pages) <> []
  /\ (width (result getAggregateHardSizeMM (reached two_pages))
      =? width (reference_aggregate (m_items (reached two_pages))))%float
     = true.
Proof.
  split; [reflexivity|].
  split; [vm_compute; discriminate|].
  apply (aggregate_is_linear_scan two_pages).
  - reflexivity.
  - vm_compute; discriminate.
Defined.

(** C2, as the claim words it, fails: with page 1 alone in the store
    (default margins 10 and 10), the what-if width for the size
    50 x 50 is 50, where the claim's formula adds the stored margins
    and gives 70. *)
Lemma what_if_adds_no_margins :
  result findWidestPage (reached one_page) = 1%N
  /\ width (result (getAggregateHardSizeMM_for 1%N (mkQSizeF 50 50))
                   (reached one_page)) = 50%float
  /\ spec_what_if_width 1%N (mkQSizeF 50 50) (reached one_page) = 70%float
  /\ width (result (getAggregateHardSizeMM_for 1%N (mkQSizeF 50 50))
                   (reached one_page))
     <> spec_what_if_width 1%N (mkQSizeF 50 50) (reached one_page).
Proof.
  split; [reflexivity|]. split; [reflexivity|]. split; [reflexivity|].
  intros H.
  apply (f_equal (fun q => (q =? 70)%float)) in H.
  vm_compute in H. discriminate H.
Qed.

(** C2, amended.  In every non-empty store reached by a sequence of
    calls, for every key [k] and every size [sz]: if the first entry of
    the width order has key [k], then either [k]'s entry is the only
    one and the width of [getAggregateHardSizeMM(k, sz)] is [sz]'s
    width, or the width is [std::max(sz.width, hardWidthMM of the
    runner-up)], where the runner-up is a stored entry of another page
    (the next one in the width order); [sz] is taken as it is (a hard
    size: no margin is added).  If moreover no call ever left a stored
    entry with a NaN hard size, no entry of another page has a greater
    [hardWidthMM] than the runner-up.  The same for the height. *)
Theorem what_if_largest_page (calls : list Call) (k : PageId) (sz : QSizeF) :
  m_items (reached calls) <> [] ->
  (result findWidestPage (reached calls) = k ->
   (others k (m_items (reached calls)) = []
    /\ width (result (getAggregateHardSizeMM_for k sz) (reached calls))
       = width sz)
   \/ exists y,
        In y (m_items (reached calls)) /\ pageId y <> k
        /\ width (result (getAggregateHardSizeMM_for k sz) (reached calls))
           = std_max (width sz) (hardWidthMM y)
        /\ (never_nan calls = true ->
            forall z, In z (m_items (reached calls)) -> pageId z <> k ->
                      (hardWidthMM y <? hardWidthMM z)%float = false))
  /\ (result findTallestPage (reached calls) = k ->
      (others k (m_items (reached calls)) = []
       /\ height (result (getAggregateHardSizeMM_for k sz) (reached calls))
          = height sz)
      \/ exists y,
           In y (m_items (reached calls)) /\ pageId y <> k
           /\ height (result (getAggregateHardSizeMM_for k sz)
                             (reached calls))
              = std_max (height sz) (hardHeightMM y)
           /\ (never_nan calls = true ->
               forall z, In z (m_items (reached calls)) -> pageId z <> k ->
                         (hardHeightMM y <? hardHeightMM z)%float = false)).
Proof.
  intros Hne.
  pose proof (reached_structural calls) as Hc.
  pose proof (structural_NoDup _ Hc) as Hnd.
  destruct (m_items (reached calls)) as [|x r] eqn:E; [contradiction|].
  destruct (structural_first _ x r Hc E) as (w & tw & h & th & Ew & Eh).
  destruct (queries_on_first _ x r w tw h th E Ew Eh)
    as (_ & -> & -> & Hq).
  rewrite Hq. simpl.
  pose proof (width_entries _ Hc) as Hw.
  pose proof (height_entries _ Hc) as Hh.
  rewrite E, ?Ew, ?Eh in *.
  split; intros Hk.
  - destruct (axis_key hardWidthMM w tw (x :: r) k (width sz) Hw Hnd Hk)
      as [[Ho Ha]|(y & Hy & Hyk & Ha & Hmax)].
    + left. auto.
    + right. exists y. repeat split; auto.
      intros Hn. apply Hmax.
      pose proof (width_descending _ (reached_ordered calls Hn)) as Hs.
      now rewrite Ew in Hs.
  - destruct (axis_key hardHeightMM h th (x :: r) k (height sz) Hh Hnd Hk)
      as [[Ho Ha]|(y & Hy & Hyk & Ha & Hmax)].
    + left. auto.
    + right. exists y. repeat split; auto.
      intros Hn. apply Hmax.
      pose proof (height_descending _ (reached_ordered calls Hn)) as Hs.
      now rewrite Eh in Hs.
Qed.

Lemma what_if_largest_page_witness :
  m_items (reached two_pages) <> []
  /\ result findWidestPage (reached two_pages) = 2%N
  /\ ((others 2%N (m_items (reached two_pages)) = []
       /\ width (result (getAggregateHardSizeMM_for 2%N (mkQSizeF 50 50))
                        (reached two_pages)) = 50%float)
      \/ exists y,
           In y (m_items (reached two_pages)) /\ pageId y <> 2%N
           /\ width (result (getAggregateHardSizeMM_for 2%N (mkQSizeF 50 50))
                            (reached two_pages))
              = std_max 50 (hardWidthMM y)
           /\ (never_nan two_pages = true ->
               forall z, In z (m_items (reached two_pages)) ->
                         pageId z <> 2%N ->
                         (hardWidthMM y <? hardWidthMM z)%float = false)).
Proof.
  split; [vm_compute; discriminate|].
  split; [reflexivity|].
  apply (what_if_largest_page two_pages 2%N (mkQSizeF 50 50)).
  - vm_compute; discriminate.
  - reflexivity.
Defined.

(** C3, as the claim words it, fails: after [nan_then_finite] the
    first entry of the width order is page 1 (hard width 50), the
    widest stored entry is page 3 (hard width 100), and for the key 7,
    which is neither, [getAggregateHardSizeMM(7, sz)] returns the
    width 50. *)
Lemma what_if_misses_maximum_after_nan :
  result findWidestPage (reached nan_then_finite) = 1%N
  /\ width (reference_aggregate (m_items (reached nan_then_finite)))
     = 100%float
  /\ width (result (getAggregateHardSizeMM_for 7%N (mkQSizeF 1 1))
                   (reached nan_then_finite)) = 50%float
  /\ width (result (getAggregateHardSizeMM_for 7%N (mkQSizeF 1 1))
                   (reached nan_then_finite))
     <> width (reference_aggregate (m_items (reached nan_then_finite))).
Proof.
  split; [reflexivity|]. split; [reflexivity|]. split; [reflexivity|].
  intros H.
  apply (f_equal (fun q => (q =? 100)%float)) in H.
  vm_compute in H. discriminate H.
Qed.

(** C3, amended.  For every store reached by a sequence of calls,
    every key [k], stored or not, and every size [sz], the call
    [getAggregateHardSizeMM(k, sz)] leaves the store as it was.  If the
    store is not empty and no call ever left a stored entry with a NaN
    hard size, then: if the first entry of the width order has a key
    other than [k], the width returned compares equal to the largest
    [hardWidthMM] of the store, whatever [sz] is; the same for the
    height. *)
Theorem what_if_other_page (calls : list Call) (k : PageId) (sz : QSizeF) :
  store_after (getAggregateHardSizeMM_for k sz) (reached calls)
  = reached calls
  /\ (never_nan calls = true ->
      m_items (reached calls) <> [] ->
      (result findWidestPage (reached calls) <> k ->
       (width (result (getAggregateHardSizeMM_for k sz) (reached calls))
        =? width (reference_aggregate (m_items (reached calls))))%float
       = true)
      /\ (result findTallestPage (reached calls) <> k ->
          (height (result (getAggregateHardSizeMM_for k sz) (reached calls))
           =? height (reference_aggregate (m_items (reached calls))))%float
          = true)).
Proof.
  split.
  { unfold store_after, getAggregateHardSizeMM_for.
    now destruct (m_items (reached calls)). }
  intros Hn Hne.
  pose proof (reached_ordered calls Hn) as Ho.
  destruct (aggregate_ordered _ Ho Hne) as [Aw Ah].
  pose proof (ordered_structural _ Ho) as Hc.
  destruct (m_items (reached calls)) as [|x r] eqn:E; [contradiction|].
  destruct (structural_first _ x r Hc E) as (w & tw & h & th & Ew & Eh).
  destruct (queries_on_first _ x r w tw h th E Ew Eh)
    as (Ha & -> & -> & Hq).
  rewrite Hq. rewrite Ha in Aw, Ah. cbn [width height] in *.
  split; intros Hk; rewrite axis_other; auto.
Qed.

Lemma what_if_other_page_witness :
  store_after (getAggregateHardSizeMM_for 7%N (mkQSizeF 1000 1000))
              (reached two_pages)
  = reached two_pages
  /\ never_nan two_pages = true
  /\ m_items (reached two_pages) <> []
  /\ result findWidestPage (reached two_pages) <> 7%N
  /\ (width (result (getAggregateHardSizeMM_for 7%N (mkQSizeF 1000 1000))
                    (reached two_pages))
      =? width (reference_aggregate (m_items (reached two_pages))))%float
     = true.
Proof.
  destruct (what_if_other_page two_pages 7%N (mkQSizeF 1000 1000))
    as (Hs & Hv).
  split; [exact Hs|].
  split; [reflexivity|].
  split; [vm_compute; discriminate|].
  split; [vm_compute; discriminate|].
  destruct Hv as [Hw _].
  - reflexivity.
  - vm_compute; discriminate.
  - apply Hw. vm_compute; discriminate.
Defined.

(** C4, at an input where the source departs from it.  Page 1 is
    stored (written by [setHardMarginsMM], so with the null rectangle);
    [setContentZone(1, (0,0,100,200), (50,80))] then stores the size
    (50,80) but leaves the null rectangle: [ModifyContentSize] assigns
    [contentSizeMM] only. *)
Theorem setContentZone_keeps_stored_rect :
  result (getPageParams 1%N)
         (store_after (setContentZone 1%N (mkQRectF 0 0 100 200)
                                      (mkQSizeF 50 80))
                      (reached margins_first))
  = Some (mkParams (mkMargins 10 5 10 5) QRectF_null (mkQSizeF 50 80)
                   m_defaultAlignment).
Proof. reflexivity. Qed.

(** C5, as the claim words it, fails: after [nan_then_finite] the
    width order reads 50, 100, 30 front to back, with every stored
    value finite. *)
Lemma width_order_unsorted_after_nan :
  map hardWidthMM (m_descWidthOrder (reached nan_then_finite))
  = [50%float; 100%float; 30%float]
  /\ forallb sizes_not_nan (m_items (reached nan_then_finite)) = true
  /\ ~ Sorted (desc hardWidthMM) (m_descWidthOrder (reached nan_then_finite)).
Proof.
  split; [reflexivity|]. split; [reflexivity|].
  intros H.
  remember (m_descWidthOrder (reached nan_then_finite)) as l eqn:El.
  vm_compute in El. subst l.
  inversion H as [|? ? _ Hh]; subst.
  inversion Hh as [|? ? Hd]; subst.
  vm_compute in Hd. discriminate Hd.
Qed.

(** C5, amended.  In every store reached from the freshly constructed
    one by a sequence of [setHardMarginsMM], [setPageAlignment] and
    [setContentZone] calls: no key is stored twice; the width order and
    the height order each hold exactly one entry per stored key; they
    hold the entries with their current field values.  If no call ever
    left a stored entry with a NaN hard width or hard height, then,
    read front to back, [hardWidthMM] never increases along the width
    order and [hardHeightMM] never increases along the height order. *)
Theorem order_consistency (calls : list Call) :
  NoDup (keys (m_items (reached calls)))
  /\ one_entry_per_key (m_descWidthOrder (reached calls))
                       (m_items (reached calls))
  /\ one_entry_per_key (m_descHeightOrder (reached calls))
                       (m_items (reached calls))
  /\ Permutation (m_descWidthOrder (reached calls)) (m_items (reached calls))
  /\ Permutation (m_descHeightOrder (reached calls)) (m_items (reached calls))
  /\ (never_nan calls = true ->
      StronglySorted (desc hardWidthMM) (m_descWidthOrder (reached calls))
      /\ StronglySorted (desc hardHeightMM)
                        (m_descHeightOrder (reached calls))).
Proof.
  pose proof (reached_structural calls) as Hc.
  pose proof (structural_NoDup _ Hc) as Hnd.
  destruct Hc as [Hid Hw Hh].
  split; [exact Hnd|].
  split; [now apply one_entry_per_key_perm|].
  split; [now apply one_entry_per_key_perm|].
  split; [exact Hw|]. split; [exact Hh|].
  intros Hn. destruct (reached_ordered calls Hn) as [_ _ Hsw Hsh]. auto.
Qed.

Lemma order_consistency_witness :
  never_nan two_pages = true
  /\ StronglySorted (desc hardWidthMM) (m_descWidthOrder (reached two_pages)).
Proof.
  split; [reflexivity|].
  destruct (order_consistency two_pages) as (_ & _ & _ & _ & _ & H).
  exact (proj1 (H eq_refl)).
Defined.

(** C6. In every store reached by a sequence of calls, for every key
    [k] and margins [m]: [setHardMarginsMM(k, m)] called twice leaves
    the very store that calling it once leaves, so every query answers
    the same after the second call as after the first. *)
Theorem setHardMarginsMM_idempotent (calls : list Call) (k : PageId)
  (m : Margins) :
  store_after (setHardMarginsMM k m)
              (store_after (setHardMarginsMM k m) (reached calls))
  = store_after (setHardMarginsMM k m) (reached calls)
  /\ forall (A : Type) (query : Method A),
       result query
              (store_after (setHardMarginsMM k m)
                 (store_after (setHardMarginsMM k m) (reached calls)))
       = result query (store_after (setHardMarginsMM k m) (reached calls)).
Proof.
  pose proof (setHardMarginsMM_twice (reached calls) k m
                (reached_structural calls)) as E.
  split; [exact E|]. intros A query. now rewrite E.
Qed.

(** C7. For every sequence of calls none of which writes page [k]:
    [getHardMarginsMM(k)] returns the default margins (left 10,
    right 10, top 5, bottom 5), [getPageAlignment(k)] the default
    alignment (centred on both axes), [getPageParams(k)] nothing; each
    returns a value and leaves the store as it was. *)
Theorem unwritten_page_defaults (calls : list Call) (k : PageId) :
  ~ In k (map call_page calls) ->
  getHardMarginsMM k (reached calls)
  = ({| left := 10; top := 5; right := 10; bottom := 5 |}, reached calls)
  /\ getPageAlignment k (reached calls)
     = ({| vertical := VCENTER; horizontal := HCENTER |}, reached calls)
  /\ getPageParams k (reached calls) = (None, reached calls).
Proof.
  intros Hk.
  assert (Hf : find k (m_items (reached calls)) = None).
  { apply find_absent. intros Hin. apply Hk. now apply reached_keys. }
  unfold getHardMarginsMM, getPageAlignment, getPageParams.
  rewrite Hf. repeat split.
Qed.

Lemma unwritten_page_defaults_witness :
  ~ In 5%N (map call_page two_pages)
  /\ getHardMarginsMM 5%N (reached two_pages)
     = ({| left := 10; top := 5; right := 10; bottom := 5 |},
        reached two_pages)
  /\ getPageAlignment 5%N (reached two_pages)
     = ({| vertical := VCENTER; horizontal := HCENTER |}, reached two_pages)
  /\ getPageParams 5%N (reached two_pages) = (None, reached two_pages).
Proof.
  assert (H : ~ In 5%N (map call_page two_pages)).
  { simpl. intros [E|[E|[E|[E|[]]]]]; discriminate E. }
  split; [exact H|].
  apply (unwritten_page_defaults two_pages 5%N H).
Defined.

(** C8. On the freshly constructed store [findWidestPage()] and
    [findTallestPage()] return the null [PageId],
    [getAggregateHardSizeMM()] returns (0,0), and so does
    [getAggregateHardSizeMM(k, sz)] for every key and size; the store
    stays empty. *)
Theorem empty_store_answers :
  findWidestPage Impl_new = (PageId_null, Impl_new)
  /\ findTallestPage Impl_new = (PageId_null, Impl_new)
  /\ getAggregateHardSizeMM Impl_new = (mkQSizeF 0 0, Impl_new)
  /\ forall (k : PageId) (sz : QSizeF),
       getAggregateHardSizeMM_for k sz Impl_new = (mkQSizeF 0 0, Impl_new).
Proof. repeat split. Qed.

(** C9, as the claim words it, fails: after [retied_pages] the pages 3
    and 1 share the largest width 30, the width order lists them as
    3, 1, and [findWidestPage()] answers 3, not the smaller page 1. *)
Lemma ties_not_in_page_order :
  keys (widest_ties (reached retied_pages)) = [3%N; 1%N]
  /\ result findWidestPage (reached retied_pages) = 3%N
  /\ ~ ties_in_page_order (reached retied_pages).
Proof.
  split; [reflexivity|]. split; [reflexivity|].
  intros [H _].
  remember (keys (widest_ties (reached retied_pages))) as l eqn:El.
  vm_compute in El. subst l.
  inversion H as [|? ? _ Hf]. inversion Hf as [|? ? Hlt _].
  discriminate Hlt.
Qed.

(** C9, amended.  In every non-empty store reached by a sequence of
    calls none of which left a stored entry with a NaN hard width or
    hard height, [findWidestPage()] returns the key of a stored entry
    whose [hardWidthMM] no stored entry exceeds, and
    [findTallestPage()] the key of a stored entry whose [hardHeightMM]
    no stored entry exceeds. *)
Theorem extremal_pages_are_maximal (calls : list Call) :
  never_nan calls = true ->
  m_items (reached calls) <> [] ->
  (exists it, In it (m_items (reached calls))
              /\ pageId it = result findWidestPage (reached calls)
              /\ forall x, In x (m_items (reached calls)) ->
                           (hardWidthMM it <? hardWidthMM x)%float = false)
  /\ (exists it, In it (m_items (reached calls))
                 /\ pageId it = result findTallestPage (reached calls)
                 /\ forall x, In x (m_items (reached calls)) ->
                              (hardHeightMM it <? hardHeightMM x)%float
                              = false).
Proof.
  intros Hn. apply extremal_ordered. now apply reached_ordered.
Qed.

Lemma extremal_pages_are_maximal_witness :
  never_nan retied_pages = true
  /\ m_items (reached retied_pages) <> []
  /\ exists it, In it (m_items (reached retied_pages))
                /\ pageId it = result findWidestPage (reached retied_pages)
                /\ forall x, In x (m_items (reached retied_pages)) ->
                             (hardWidthMM it <? hardWidthMM x)%float = false.
Proof.
  assert (H : m_items (reached retied_pages) <> [])
    by (vm_compute; discriminate).
  split; [reflexivity|]. split; [exact H|].
  exact (proj1 (extremal_pages_are_maximal retied_pages eq_refl H)).
Defined.

(** ** The scenarios of the spec, evaluated *)

Example two_pages_aggregate :
  result getAggregateHardSizeMM (reached two_pages) = mkQSizeF 300 290.
Proof. reflexivity. Qed.

Example two_pages_widest : result findWidestPage (reached two_pages) = 2%N.
Proof. reflexivity. Qed.

Example two_pages_tallest : result findTallestPage (reached two_pages) = 1%N.
Proof. reflexivity. Qed.

Example what_if_narrower :
  width (result (getAggregateHardSizeMM_for 1%N (mkQSizeF 50 0))
                (reached wide_and_narrow)) = 80%float.
Proof. reflexivity. Qed.

Example what_if_wider :
  width (result (getAggregateHardSizeMM_for 1%N (mkQSizeF 200 0))
                (reached wide_and_narrow)) = 200%float.
Proof. reflexivity. Qed.

(** A key that is not stored never wins, however large the size. *)
Example what_if_absent_page :
  width (result (getAggregateHardSizeMM_for 9%N (mkQSizeF 200 0))
                (reached wide_and_narrow)) = 100%float.
Proof. reflexivity. Qed.

(** ** Keyed lookup after a write *)

Lemma getPageParams_find (k : PageId) (s : Impl) :
  result (getPageParams k) s = option_map item_params (find k (m_items s)).
Proof.
  unfold result, getPageParams. now destruct (find k (m_items s)).
Qed.

Lemma getHardMarginsMM_find (k : PageId) (s : Impl) :
  result (getHardMarginsMM k) s
  = match find k (m_items s) with
    | Some it => hardMarginsMM it
    | None => m_defaultHardMarginsMM
    end.
Proof.
  unfold result, getHardMarginsMM. now destruct (find k (m_items s)).
Qed.

(** One call, seen from one page. *)
Lemma perform_params (s : Impl) (c : Call) (k : PageId) :
  structural s ->
  result (getPageParams k) (perform s c)
  = params_after k (result (getPageParams k) s) c.
Proof.
  intros Hc. rewrite !getPageParams_find. unfold params_after.
  destruct (N.eqb_spec (call_page c) k) as [E|E].
  - subst k.
    destruct c as [p m|p a|p r sz]; simpl; unfold store_after; simpl;
      match goal with
      | |- context [upsert p ?item ?modifier s] =>
          destruct (upsert_stored p item modifier s eq_refl
                      (fun _ => eq_refl) Hc)
            as (it & -> & [[-> ->]|(x & -> & ->)])
      end; reflexivity.
  - destruct c as [p m|p a|p r sz]; simpl in *; unfold store_after; simpl;
      rewrite upsert_find_other; auto.
Qed.

Lemma fold_perform_params (calls : list Call) (s : Impl) (k : PageId) :
  structural s ->
  result (getPageParams k) (fold_left perform calls s)
  = fold_left (params_after k) calls (result (getPageParams k) s).
Proof.
  revert s. induction calls as [|c calls IH]; simpl; intros s Hc; auto.
  rewrite IH by now apply perform_structural.
  now rewrite perform_params.
Qed.

(** ** The front of an order after a write *)

Lemma aggregate_width_first (s : Impl) (w : Item) (t : list Item) :
  structural s -> m_descWidthOrder s = w :: t ->
  width (result getAggregateHardSizeMM s) = hardWidthMM w.
Proof.
  intros [_ Hw Hh] Ew. rewrite Ew in Hw.
  unfold result, getAggregateHardSizeMM. rewrite Ew.
  destruct (m_items s) as [|x r].
  - apply Permutation_sym, Permutation_nil in Hw. discriminate.
  - destruct (m_descHeightOrder s); [|reflexivity].
    apply Permutation_nil in Hh. discriminate.
Qed.

Lemma aggregate_height_first (s : Impl) (h : Item) (t : list Item) :
  structural s -> m_descHeightOrder s = h :: t ->
  height (result getAggregateHardSizeMM s) = hardHeightMM h.
Proof.
  intros [_ Hw Hh] Eh. rewrite Eh in Hh.
  unfold result, getAggregateHardSizeMM. rewrite Eh.
  destruct (m_items s) as [|x r].
  - apply Permutation_sym, Permutation_nil in Hh. discriminate.
  - destruct (m_descWidthOrder s); [|reflexivity].
    apply Permutation_nil in Hw. discriminate.
Qed.

Section FrontOfAnOrder.

Variable key : Item -> float.

(** The node at the front is modified: the new front carries what the
    what-if query computes from the old order and the new value. *)
Lemma modify_front (k : PageId) (w : Item) (rest : list Item) (v : Item) :
  pageId w = k ->
  exists w' t',
    modify_ key k v (w :: rest) = w' :: t'
    /\ key w' = aggregate_axis key (w :: rest) k (key v).
Proof.
  intros Hk. unfold modify_, aggregate_axis. simpl.
  rewrite Hk, N.eqb_refl. simpl.
  destruct rest as [|y r].
  - exists v, []. split; reflexivity.
  - unfold in_place, std_max, greater. simpl.
    destruct (key v <? key y)%float eqn:E; simpl.
    + unfold greater. rewrite (ltb_asym _ _ E).
      exists y, (link_point key v r). split; reflexivity.
    + exists v, (y :: r). split; reflexivity.
Qed.

Lemma hinted_front (position : Position) (v w : Item) (t : list Item) :
  exists w' t',
    hinted_link key position v (w :: t) = w' :: t'
    /\ (key w' <? key w)%float = false.
Proof.
  destruct (hinted_link_place key position v (w :: t))
    as (a & b & Eab & -> & Hip).
  eapply place_first; eauto.
Qed.

Lemma modify_front_other (p : PageId) (v w : Item) (t : list Item) :
  pageId w <> p ->
  exists w' t',
    modify_ key p v (w :: t) = w' :: t'
    /\ (key w' <? key w)%float = false.
Proof.
  intros Hk. unfold modify_. simpl.
  destruct (N.eqb_spec (pageId w) p) as [E|E]; [contradiction|].
  destruct (split_at_node (Some p) t) as [a b].
  destruct b as [|x next].
  - exists w, t. split; auto using ltb_irrefl.
  - destruct (in_place key v (w :: a) next).
    + exists w, (a ++ v :: next). split; auto using ltb_irrefl.
    + destruct (link_point_place key v ((w :: a) ++ next))
        as (a' & b' & Eab & -> & Hip).
      eapply place_first; eauto.
Qed.

End FrontOfAnOrder.

(** The front of an order after [upsert] on a page that was not at its
    front is not less than the front before. *)
Lemma upsert_front_other (k : PageId) (item : Item)
  (modifier : Item -> Item) (s : Impl) :
  (forall w t, m_descWidthOrder s = w :: t -> pageId w <> k ->
     exists w' t',
       m_descWidthOrder (upsert k item modifier s) = w' :: t'
       /\ (hardWidthMM w' <? hardWidthMM w)%float = false)
  /\ (forall h t, m_descHeightOrder s = h :: t -> pageId h <> k ->
        exists h' t',
          m_descHeightOrder (upsert k item modifier s) = h' :: t'
          /\ (hardHeightMM h' <? hardHeightMM h)%float = false).
Proof.
  destruct (upsert_cases k item modifier s)
    as [(pre & post & E & _ & _ & ->)|(pre & x & post & E & Hx & ->)];
    simpl; split; intros w t Ew Hk; rewrite Ew.
  - apply hinted_front.
  - apply hinted_front.
  - apply modify_front_other. congruence.
  - apply modify_front_other. congruence.
Qed.

(** The item a page at the front of an order holds is the one [find]
    returns. *)
Lemma front_is_found (s : Impl) (order : list Item) (w : Item)
  (t : list Item) :
  structural s ->
  Permutation order (m_items s) ->
  order = w :: t ->
  find (pageId w) (m_items s) = Some w.
Proof.
  intros Hc Hp E. apply find_present; [apply Hc|].
  apply (Permutation_in _ Hp). rewrite E. simpl; auto.
Qed.

Lemma what_if_predicts_structural (s : Impl) (k : PageId) (r : QRectF)
  (sz : QSizeF) :
  structural s -> m_items s <> [] ->
  (result findWidestPage s = k ->
   width (result (getAggregateHardSizeMM_for k
                    (hard_size_with (result (getHardMarginsMM k) s) sz)) s)
   = width (result getAggregateHardSizeMM
                   (store_after (setContentZone k r sz) s)))
  /\ (result findTallestPage s = k ->
      height (result (getAggregateHardSizeMM_for k
                        (hard_size_with (result (getHardMarginsMM k) s) sz))
                     s)
      = height (result getAggregateHardSizeMM
                       (store_after (setContentZone k r sz) s))).
Proof.
  intros Hc Hne.
  assert (Hc' : structural (store_after (setContentZone k r sz) s)).
  { unfold store_after, setContentZone. simpl.
    now apply upsert_structural. }
  destruct (m_items s) as [|x0 r0] eqn:E; [contradiction|].
  destruct (structural_first s x0 r0 Hc E) as (w & tw & h & th & Ew & Eh).
  destruct (queries_on_first s x0 r0 w tw h th E Ew Eh)
    as (_ & -> & -> & Hq).
  rewrite Hq. cbn [width height].
  split; intros Hk.
  - pose proof (front_is_found s _ w tw Hc (width_entries s Hc) Ew) as Hf.
    rewrite Hk in Hf.
    unfold result at 1, getHardMarginsMM. rewrite Hf. cbn [fst].
    revert Hc'. unfold store_after, setContentZone. cbn [snd].
    destruct (upsert_present k
                (mkItem k m_defaultHardMarginsMM r sz m_defaultAlignment)
                w (ModifyContentSize sz) s Hc Hf)
      as (pre & post & _ & ->).
    intros Hc'.
    destruct (modify_front hardWidthMM k w tw (ModifyContentSize sz w) Hk)
      as (w' & t' & Em & Ekey).
    rewrite (aggregate_width_first _ w' t' Hc').
    + rewrite Ekey. reflexivity.
    + simpl. rewrite Ew, Hk. exact Em.
  - pose proof (front_is_found s _ h th Hc (height_entries s Hc) Eh) as Hf.
    rewrite Hk in Hf.
    unfold result at 1, getHardMarginsMM. rewrite Hf. cbn [fst].
    revert Hc'. unfold store_after, setContentZone. cbn [snd].
    destruct (upsert_present k
                (mkItem k m_defaultHardMarginsMM r sz m_defaultAlignment)
                h (ModifyContentSize sz) s Hc Hf)
      as (pre & post & _ & ->).
    intros Hc'.
    destruct (modify_front hardHeightMM k h th (ModifyContentSize sz h) Hk)
      as (h' & t' & Em & Ekey).
    rewrite (aggregate_height_first _ h' t' Hc').
    + rewrite Ekey. reflexivity.
    + simpl. rewrite Eh, Hk. exact Em.
Qed.

(** ** The maximum with one entry set apart *)

Lemma reference_what_if_maximum (f : Item -> float) (v : Item)
  (entries : list Item) :
  NoDup (keys entries) ->
  In v entries ->
  Forall (fun it => is_nan (f it) = false) entries ->
  maximum_of f (reference_what_if f (pageId v) (f v) entries) entries.
Proof.
  intros Hnd Hv Hn. unfold reference_what_if.
  assert (Hsame : forall z, In z entries -> pageId z = pageId v -> z = v)
    by (intros; eapply same_key_same_item; eauto).
  destruct (others (pageId v) entries) as [|y r] eqn:Eo.
  - split; [exists v; auto|].
    intros z Hz. destruct (N.eq_dec (pageId z) (pageId v)) as [E|E].
    + rewrite (Hsame z Hz E). apply ltb_irrefl.
    + assert (H : In z (others (pageId v) entries)) by now apply others_In.
      rewrite Eo in H. contradiction.
  - assert (Hno : Forall (fun it => is_nan (f it) = false) (y :: r)).
    { rewrite Forall_forall in *. intros z Hz. apply Hn.
      rewrite <- Eo in Hz. now apply others_In in Hz. }
    destruct (scan_max_maximum f y r Hno) as [(m & Hm & Em) Hall].
    assert (Hin : forall z, In z (y :: r) -> In z entries).
    { intros z Hz. rewrite <- Eo in Hz. now apply others_In in Hz. }
    assert (Hsn : is_nan (scan_max f y r) = false).
    { rewrite Em. rewrite Forall_forall in Hno. auto. }
    destruct (f v <? scan_max f y r)%float eqn:C.
    + split; [exists m; auto|].
      intros z Hz. destruct (N.eq_dec (pageId z) (pageId v)) as [E|E].
      * rewrite (Hsame z Hz E). now apply ltb_asym.
      * apply Hall. rewrite <- Eo. now apply others_In.
    + split; [exists v; auto|].
      intros z Hz. destruct (N.eq_dec (pageId z) (pageId v)) as [E|E].
      * rewrite (Hsame z Hz E). apply ltb_irrefl.
      * apply ltb_neg_trans with (b := scan_max f y r); auto.
        apply Hall. rewrite <- Eo. now apply others_In.
Qed.

(** The aggregate after a write to page [k], from the entry the write
    leaves and the entries of the other pages before it. *)
Lemma aggregate_after_upsert (k : PageId) (item it : Item)
  (modifier : Item -> Item) (s : Impl) :
  pageId item = k ->
  (forall x, pageId (modifier x) = pageId x) ->
  ordered (upsert k item modifier s) ->
  find k (m_items (upsert k item modifier s)) = Some it ->
  (width (result getAggregateHardSizeMM (upsert k item modifier s))
   =? reference_what_if hardWidthMM k (hardWidthMM it) (m_items s))%float
  = true
  /\ (height (result getAggregateHardSizeMM (upsert k item modifier s))
      =? reference_what_if hardHeightMM k (hardHeightMM it) (m_items s))%float
     = true.
Proof.
  intros Hk Hm Ho Hf.
  destruct Ho as [Hc Hn Hsw Hsh].
  pose proof (structural_NoDup _ Hc) as Hnd.
  apply find_some in Hf. destruct Hf as [Hin Hit].
  assert (Ew : forall f, reference_what_if f k (f it) (m_items s)
                         = reference_what_if f (pageId it) (f it)
                             (m_items (upsert k item modifier s))).
  { intros f. unfold reference_what_if.
    now rewrite Hit, (upsert_others k item modifier s Hk Hm). }
  rewrite !Ew.
  destruct (m_items (upsert k item modifier s)) as [|x r] eqn:E;
    [contradiction|].
  destruct (structural_first _ x r Hc E) as (w & tw & h & th & Eow & Eoh).
  destruct (queries_on_first _ x r w tw h th E Eow Eoh) as (-> & _).
  pose proof (width_entries _ Hc) as Hw.
  pose proof (height_entries _ Hc) as Hh.
  rewrite E, ?Eow, ?Eoh in *. cbn [width height].
  split.
  - apply maximum_eqb with (f := hardWidthMM) (l := x :: r).
    + apply no_nan_entries; auto using sizes_not_nan_width.
    + eapply maximum_perm; [exact Hw|]. now apply first_maximum.
    + apply reference_what_if_maximum; auto.
      apply no_nan_entries; auto using sizes_not_nan_width.
  - apply maximum_eqb with (f := hardHeightMM) (l := x :: r).
    + apply no_nan_entries; auto using sizes_not_nan_height.
    + eapply maximum_perm; [exact Hh|]. now apply first_maximum.
    + apply reference_what_if_maximum; auto.
      apply no_nan_entries; auto using sizes_not_nan_height.
Qed.

Lemma reached_app_ordered (calls : list Call) (c : Call) :
  never_nan (calls ++ [c]) = true ->
  ordered (reached calls) /\ ordered (perform (reached calls) c).
Proof.
  intros Hn. apply never_nan_from_app in Hn. destruct Hn as [H1 H2].
  pose proof (reached_ordered calls H1) as Ho.
  split; auto. now apply perform_ordered.
Qed.

(** ** A modification that leaves the key of an order alone *)

Lemma modify_order_view (f : Item -> float) (v x : Item)
  (order entries : list Item) :
  NoDup (keys entries) ->
  Permutation order entries ->
  StronglySorted (desc f) order ->
  In x entries ->
  pageId v = pageId x ->
  f v = f x ->
  order_view f (modify_ f (pageId x) v order) = order_view f order.
Proof.
  intros Hnd Hp Hs Hx Hpv Hfv.
  destruct (split_at_node_item _ _ x Hnd Hp Hx) as (a & b & E).
  rewrite (modify_same_key f _ v x order a b Hs E Hfv).
  apply split_at_node_app in E. subst order.
  unfold order_view. rewrite !map_app. simpl. now rewrite Hpv, Hfv.
Qed.

Lemma aggregate_axis_view (f : Item -> float) (l l' : list Item)
  (k : PageId) (hard : float) :
  order_view f l = order_view f l' ->
  aggregate_axis f l k hard = aggregate_axis f l' k hard.
Proof.
  unfold order_view.
  destruct l as [|a [|b l]], l' as [|a' [|b' l']]; simpl; intros H;
    inversion H; auto;
    repeat match goal with
           | E : pageId _ = pageId _ |- _ => rewrite E; clear E
           | E : f _ = f _ |- _ => rewrite E; clear E
           end; auto.
Qed.

Lemma first_view (f : Item -> float) (l l' : list Item) :
  order_view f l = order_view f l' ->
  match l, l' with
  | [], [] => True
  | a :: _, a' :: _ => pageId a = pageId a' /\ f a = f a'
  | _, _ => False
  end.
Proof.
  unfold order_view. destruct l, l'; simpl; intros H; inversion H; auto.
Qed.

(** The four queries on the orders see an order through its view. *)
Lemma aggregates_by_view (s s' : Impl) :
  (m_items s = [] <-> m_items s' = []) ->
  order_view hardWidthMM (m_descWidthOrder s)
  = order_view hardWidthMM (m_descWidthOrder s') ->
  order_view hardHeightMM (m_descHeightOrder s)
  = order_view hardHeightMM (m_descHeightOrder s') ->
  result getAggregateHardSizeMM s = result getAggregateHardSizeMM s'
  /\ (forall j sz, result (getAggregateHardSizeMM_for j sz) s
                   = result (getAggregateHardSizeMM_for j sz) s')
  /\ result findWidestPage s = result findWidestPage s'
  /\ result findTallestPage s = result findTallestPage s'.
Proof.
  intros He Hw Hh.
  pose proof (first_view _ _ _ Hw) as Fw.
  pose proof (first_view _ _ _ Hh) as Fh.
  unfold result, getAggregateHardSizeMM, getAggregateHardSizeMM_for,
    findWidestPage, findTallestPage.
  destruct (m_items s) as [|x r], (m_items s') as [|x' r'];
    try (destruct He as [He1 He2];
         (discriminate (He1 eq_refl) || discriminate (He2 eq_refl))).
  - repeat split.
  - repeat split; simpl.
    + destruct (m_descWidthOrder s), (m_descWidthOrder s'),
        (m_descHeightOrder s), (m_descHeightOrder s');
        simpl in *; try contradiction; auto.
      destruct Fw as [_ ->], Fh as [_ ->]. reflexivity.
    + intros j sz. f_equal; now apply aggregate_axis_view.
    + destruct (m_descWidthOrder s), (m_descWidthOrder s');
        simpl in *; try contradiction; auto. apply Fw.
    + destruct (m_descHeightOrder s), (m_descHeightOrder s');
        simpl in *; try contradiction; auto. apply Fh.
Qed.

(** ** Further properties of the store *)

(** X1. [getPageParams(k)] returns a bundle exactly for the pages some
    setter has been called on: entries are created by the first write
    and are never removed. *)
Theorem stored_iff_written (calls : list Call) (k : PageId) :
  result (getPageParams k) (reached calls) <> None
  <-> In k (map call_page calls).
Proof.
  rewrite getPageParams_find.
  pose proof (find_stored (m_items (reached calls)) k
                (ids_ascending _ (reached_structural calls))) as Hs.
  split.
  - intros H. apply reached_keys, Hs.
    destruct (find k (m_items (reached calls))); [discriminate|].
    now elim H.
  - intros H.
    assert (Hin : In k (keys (m_items (reached calls))))
      by (apply fold_perform_adds_keys; auto).
    apply Hs in Hin.
    destruct (find k (m_items (reached calls))); [discriminate|].
    now elim Hin.
Qed.

(** X2. After [setHardMarginsMM(k, m)], [getHardMarginsMM(k)] returns
    [m], whether the page was stored before or not. *)
Theorem margins_round_trip (calls : list Call) (k : PageId) (m : Margins) :
  result (getHardMarginsMM k)
         (store_after (setHardMarginsMM k m) (reached calls)) = m.
Proof.
  unfold result, getHardMarginsMM, store_after, setHardMarginsMM. simpl.
  match goal with
  | |- context [upsert k ?item ?modifier ?s] =>
      destruct (upsert_stored k item modifier s eq_refl
                  (fun _ => eq_refl) (reached_structural calls))
        as (it & -> & [[_ ->]|(x & _ & ->)])
  end; reflexivity.
Qed.

(** X3. After [setPageAlignment(k, a)], [getPageAlignment(k)] returns
    [a], whether the page was stored before or not. *)
Theorem alignment_round_trip (calls : list Call) (k : PageId)
  (a : Alignment) :
  result (getPageAlignment k)
         (store_after (setPageAlignment k a) (reached calls)) = a.
Proof.
  unfold result, getPageAlignment, store_after, setPageAlignment. simpl.
  match goal with
  | |- context [upsert k ?item ?modifier ?s] =>
      destruct (upsert_stored k item modifier s eq_refl
                  (fun _ => eq_refl) (reached_structural calls))
        as (it & -> & [[_ ->]|(x & _ & ->)])
  end; reflexivity.
Qed.

(** X4. After [setContentZone(k, r, sz)], [getPageParams(k)] returns a
    bundle whose content size is [sz].  If the page held nothing
    before, its rectangle is [r] and its margins and alignment are the
    defaults; if it held a bundle, the rectangle, the margins and the
    alignment are those of that bundle (the rectangle [r] is not
    stored). *)
Theorem content_zone_round_trip (calls : list Call) (k : PageId)
  (r : QRectF) (sz : QSizeF) :
  exists p,
    result (getPageParams k)
           (store_after (setContentZone k r sz) (reached calls)) = Some p
    /\ params_contentSizeMM p = sz
    /\ (result (getPageParams k) (reached calls) = None ->
        p = mkParams m_defaultHardMarginsMM r sz m_defaultAlignment)
    /\ (forall q, result (getPageParams k) (reached calls) = Some q ->
                  p = mkParams (params_hardMarginsMM q)
                               (params_contentRect q) sz
                               (params_alignment q)).
Proof.
  pose proof (perform_params (reached calls) (SetContentZone k r sz) k
                (reached_structural calls)) as H.
  unfold params_after in H. simpl in H. rewrite N.eqb_refl in H.
  eexists. split; [exact H|].
  destruct (result (getPageParams k) (reached calls)) as [q|]; simpl.
  - repeat split; [discriminate | intros q' E; now inversion E].
  - repeat split. discriminate.
Qed.

(** X5. A setter called on one page leaves what the three keyed
    getters return for every other page. *)
Theorem other_pages_untouched (calls : list Call) (c : Call) (j : PageId) :
  call_page c <> j ->
  result (getPageParams j) (perform (reached calls) c)
  = result (getPageParams j) (reached calls)
  /\ result (getHardMarginsMM j) (perform (reached calls) c)
     = result (getHardMarginsMM j) (reached calls)
  /\ result (getPageAlignment j) (perform (reached calls) c)
     = result (getPageAlignment j) (reached calls).
Proof.
  intros Hj.
  assert (Hf : find j (m_items (perform (reached calls) c))
               = find j (m_items (reached calls))).
  { destruct c; simpl in *; unfold store_after; simpl;
      apply upsert_find_other; auto using reached_structural. }
  unfold result, getPageParams, getHardMarginsMM, getPageAlignment.
  rewrite Hf.
  destruct (find j (m_items (reached calls))); repeat split.
Qed.

Lemma other_pages_untouched_witness :
  call_page (SetContentZone 2%N QRectF_null (mkQSizeF 1 1)) <> 1%N
  /\ result (getPageParams 1%N)
            (perform (reached two_pages)
                     (SetContentZone 2%N QRectF_null (mkQSizeF 1 1)))
     = result (getPageParams 1%N) (reached two_pages).
Proof.
  assert (H : call_page (SetContentZone 2%N QRectF_null (mkQSizeF 1 1))
              <> 1%N) by (simpl; discriminate).
  split; [exact H|].
  exact (proj1 (other_pages_untouched two_pages _ 1%N H)).
Defined.

(** X6. What [getPageParams(k)] returns after any sequence of calls is
    what the calls on page [k] alone determine, taken in order: the
    first creates the bundle from its argument and the defaults, each
    later one replaces its own field ([setContentZone] the content
    size only); calls on other pages play no part. *)
Theorem page_params_follow_history (calls : list Call) (k : PageId) :
  result (getPageParams k) (reached calls) = params_history k calls.
Proof.
  unfold reached, params_history.
  now rewrite fold_perform_params by apply Impl_new_structural.
Qed.

(** X7. In a store reached by calls none of which left a stored entry
    with a NaN hard size, [setPageAlignment] on a page that is stored
    changes no answer of [getAggregateHardSizeMM()], of
    [getAggregateHardSizeMM(j, sz)], of [findWidestPage()] or of
    [findTallestPage()]. *)
Theorem alignment_leaves_aggregates (calls : list Call) (k : PageId)
  (a : Alignment) :
  never_nan calls = true ->
  result (getPageParams k) (reached calls) <> None ->
  result getAggregateHardSizeMM
         (store_after (setPageAlignment k a) (reached calls))
  = result getAggregateHardSizeMM (reached calls)
  /\ (forall j sz,
         result (getAggregateHardSizeMM_for j sz)
                (store_after (setPageAlignment k a) (reached calls))
         = result (getAggregateHardSizeMM_for j sz) (reached calls))
  /\ result findWidestPage
            (store_after (setPageAlignment k a) (reached calls))
     = result findWidestPage (reached calls)
  /\ result findTallestPage
            (store_after (setPageAlignment k a) (reached calls))
     = result findTallestPage (reached calls).
Proof.
  intros Hn Hst. rewrite getPageParams_find in Hst.
  destruct (reached_ordered calls Hn) as [Hc _ Hsw Hsh].
  destruct (find k (m_items (reached calls))) as [x|] eqn:Hf;
    [clear Hst | now elim Hst].
  unfold store_after, setPageAlignment. simpl.
  set (item := mkItem k m_defaultHardMarginsMM QRectF_null m_zeroSize a).
  destruct (upsert_present k item x (ModifyAlignment a) _ Hc Hf)
    as (pre & post & E & ->).
  pose proof (structural_NoDup _ Hc) as Hnd.
  assert (Hx : In x (m_items (reached calls)))
    by (rewrite E; apply in_or_app; simpl; auto).
  destruct Hc as [_ Hw Hh].
  assert (G : forall s1 s2 : Impl,
             (m_items s2 = [] <-> m_items s1 = []) ->
             order_view hardWidthMM (m_descWidthOrder s2)
             = order_view hardWidthMM (m_descWidthOrder s1) ->
             order_view hardHeightMM (m_descHeightOrder s2)
             = order_view hardHeightMM (m_descHeightOrder s1) ->
             result getAggregateHardSizeMM s2
             = result getAggregateHardSizeMM s1
             /\ (forall j sz, result (getAggregateHardSizeMM_for j sz) s2
                              = result (getAggregateHardSizeMM_for j sz) s1)
             /\ result findWidestPage s2 = result findWidestPage s1
             /\ result findTallestPage s2 = result findTallestPage s1)
    by (intros; now apply aggregates_by_view).
  apply G; unfold container_modify; simpl.
  - rewrite E. split; intros H; destruct pre; discriminate H.
  - now apply modify_order_view with (entries := m_items (reached calls)).
  - now apply modify_order_view with (entries := m_items (reached calls)).
Qed.

Lemma alignment_leaves_aggregates_witness :
  never_nan two_pages = true
  /\ result (getPageParams 1%N) (reached two_pages) <> None
  /\ result getAggregateHardSizeMM
            (store_after (setPageAlignment 1%N (mkAlignment TOP LEFT))
                         (reached two_pages))
     = result getAggregateHardSizeMM (reached two_pages).
Proof.
  assert (H : result (getPageParams 1%N) (reached two_pages) <> None)
    by (vm_compute; discriminate).
  split; [reflexivity|]. split; [exact H|].
  exact (proj1 (alignment_leaves_aggregates two_pages 1%N
                  (mkAlignment TOP LEFT) eq_refl H)).
Defined.

(** X8. If neither the calls made so far nor [setContentZone(k, r, sz)]
    leave a stored entry with a NaN hard size, then after that call
    [getAggregateHardSizeMM()] returns, on each axis, a value that
    compares equal to the larger of the hard size page [k] now has
    ([sz] plus the margins [getHardMarginsMM(k)] returned before the
    call) and the largest hard size among the other pages, or to the
    former alone when there is no other page. *)
Theorem aggregate_after_setContentZone (calls : list Call) (k : PageId)
  (r : QRectF) (sz : QSizeF) :
  never_nan (calls ++ [SetContentZone k r sz]) = true ->
  (width (result getAggregateHardSizeMM
                 (store_after (setContentZone k r sz) (reached calls)))
   =? reference_what_if hardWidthMM k
        (width (hard_size_with
                  (result (getHardMarginsMM k) (reached calls)) sz))
        (m_items (reached calls)))%float = true
  /\ (height (result getAggregateHardSizeMM
                     (store_after (setContentZone k r sz) (reached calls)))
      =? reference_what_if hardHeightMM k
           (height (hard_size_with
                      (result (getHardMarginsMM k) (reached calls)) sz))
           (m_items (reached calls)))%float = true.
Proof.
  intros Hn. destruct (reached_app_ordered _ _ Hn) as [Ho Ho'].
  pose proof (ordered_structural _ Ho) as Hc.
  rewrite getHardMarginsMM_find.
  set (item := mkItem k m_defaultHardMarginsMM r sz m_defaultAlignment).
  change (perform (reached calls) (SetContentZone k r sz))
    with (upsert k item (ModifyContentSize sz) (reached calls)) in Ho'.
  change (store_after (setContentZone k r sz) (reached calls))
    with (upsert k item (ModifyContentSize sz) (reached calls)).
  destruct (upsert_stored k item (ModifyContentSize sz) _
              eq_refl (fun _ => eq_refl) Hc) as (it & Hf & Hit).
  destruct (aggregate_after_upsert k item it (ModifyContentSize sz) _
              eq_refl (fun _ => eq_refl) Ho' Hf) as [Aw Ah].
  destruct Hit as [[Hnone ->]|(x & Hx & ->)].
  - rewrite Hnone. split; [exact Aw | exact Ah].
  - rewrite Hx. split; [exact Aw | exact Ah].
Qed.

Lemma aggregate_after_setContentZone_witness :
  never_nan (two_pages ++ [SetContentZone 1%N QRectF_null (mkQSizeF 400 1)])
  = true
  /\ (width (result getAggregateHardSizeMM
               (store_after (setContentZone 1%N QRectF_null (mkQSizeF 400 1))
                            (reached two_pages)))
      =? reference_what_if hardWidthMM 1%N
           (width (hard_size_with
                     (result (getHardMarginsMM 1%N) (reached two_pages))
                     (mkQSizeF 400 1)))
           (m_items (reached two_pages)))%float = true.
Proof.
  split; [reflexivity|].
  exact (proj1 (aggregate_after_setContentZone two_pages 1%N QRectF_null
                  (mkQSizeF 400 1) eq_refl)).
Defined.

(** X9. When [k] is the page [findWidestPage()] returns, the width of
    the what-if query [getAggregateHardSizeMM(k, h)], asked with the
    hard size [h] that [setContentZone(k, r, sz)] would give the page,
    is the width [getAggregateHardSizeMM()] returns after that call is
    made; the same for the height when [k] is the page
    [findTallestPage()] returns. *)
Theorem what_if_predicts_update (calls : list Call) (k : PageId)
  (r : QRectF) (sz : QSizeF) :
  m_items (reached calls) <> [] ->
  (result findWidestPage (reached calls) = k ->
   width (result (getAggregateHardSizeMM_for k
                    (hard_size_with
                       (result (getHardMarginsMM k) (reached calls)) sz))
                 (reached calls))
   = width (result getAggregateHardSizeMM
                   (store_after (setContentZone k r sz) (reached calls))))
  /\ (result findTallestPage (reached calls) = k ->
      height (result (getAggregateHardSizeMM_for k
                        (hard_size_with
                           (result (getHardMarginsMM k) (reached calls)) sz))
                     (reached calls))
      = height (result getAggregateHardSizeMM
                       (store_after (setContentZone k r sz)
                                    (reached calls)))).
Proof.
  apply what_if_predicts_structural, reached_structural.
Qed.

Lemma what_if_predicts_update_witness :
  m_items (reached two_pages) <> []
  /\ result findWidestPage (reached two_pages) = 2%N
  /\ width (result (getAggregateHardSizeMM_for 2%N
                      (hard_size_with
                         (result (getHardMarginsMM 2%N) (reached two_pages))
                         (mkQSizeF 100 100)))
                   (reached two_pages))
     = width (result getAggregateHardSizeMM
                     (store_after
                        (setContentZone 2%N QRectF_null (mkQSizeF 100 100))
                        (reached two_pages))).
Proof.
  assert (H : m_items (reached two_pages) <> [])
    by (vm_compute; discriminate).
  split; [exact H|]. split; [reflexivity|].
  exact (proj1 (what_if_predicts_update two_pages 2%N QRectF_null
                  (mkQSizeF 100 100) H) eq_refl).
Defined.

(** X10. On a non-empty store the what-if query
    [getAggregateHardSizeMM(k, h)], asked with the hard size [h] that
    [setContentZone(k, r, sz)] would give page [k], never returns more,
    on either axis, than [getAggregateHardSizeMM()] returns after that
    call is made (the latter is not less than the former): where [k] is
    not the current extremal page the query ignores [h]. *)
Theorem what_if_never_exceeds_update (calls : list Call) (k : PageId)
  (r : QRectF) (sz : QSizeF) :
  m_items (reached calls) <> [] ->
  (width (result getAggregateHardSizeMM
                 (store_after (setContentZone k r sz) (reached calls)))
   <? width (result (getAggregateHardSizeMM_for k
                       (hard_size_with
                          (result (getHardMarginsMM k) (reached calls)) sz))
                    (reached calls)))%float = false
  /\ (height (result getAggregateHardSizeMM
                     (store_after (setContentZone k r sz) (reached calls)))
      <? height (result (getAggregateHardSizeMM_for k
                           (hard_size_with
                              (result (getHardMarginsMM k) (reached calls))
                              sz))
                        (reached calls)))%float = false.
Proof.
  intros Hne. pose proof (reached_structural calls) as Hc.
  set (hs := hard_size_with (result (getHardMarginsMM k) (reached calls)) sz).
  destruct (what_if_predicts_structural _ k r sz Hc Hne) as [Pw Ph].
  fold hs in Pw, Ph.
  assert (Hc' : structural (store_after (setContentZone k r sz)
                                         (reached calls))).
  { unfold store_after, setContentZone. simpl.
    now apply upsert_structural. }
  destruct (m_items (reached calls)) as [|x0 r0] eqn:E; [contradiction|].
  destruct (structural_first _ x0 r0 Hc E) as (w & tw & h & th & Ew & Eh).
  destruct (queries_on_first _ x0 r0 w tw h th E Ew Eh)
    as (_ & Fw & Fh & Hq).
  rewrite Fw in Pw. rewrite Fh in Ph.
  destruct (upsert_front_other k
              (mkItem k m_defaultHardMarginsMM r sz m_defaultAlignment)
              (ModifyContentSize sz) (reached calls)) as [Uw Uh].
  split.
  - destruct (N.eq_dec (pageId w) k) as [Ek|Ek].
    + rewrite <- (Pw Ek). apply ltb_irrefl.
    + destruct (Uw w tw Ew Ek) as (w' & t' & Ew' & Hle).
      rewrite Hq. cbn [width]. rewrite axis_other by exact Ek.
      rewrite (aggregate_width_first _ w' t' Hc' Ew'). exact Hle.
  - destruct (N.eq_dec (pageId h) k) as [Ek|Ek].
    + rewrite <- (Ph Ek). apply ltb_irrefl.
    + destruct (Uh h th Eh Ek) as (h' & t' & Eh' & Hle).
      rewrite Hq. cbn [height]. rewrite axis_other by exact Ek.
      rewrite (aggregate_height_first _ h' t' Hc' Eh'). exact Hle.
Qed.

Lemma what_if_never_exceeds_update_witness :
  m_items (reached two_pages) <> []
  /\ (width (result getAggregateHardSizeMM
                    (store_after
                       (setContentZone 1%N QRectF_null (mkQSizeF 500 500))
                       (reached two_pages)))
      <? width (result (getAggregateHardSizeMM_for 1%N
                          (hard_size_with
                             (result (getHardMarginsMM 1%N)
                                     (reached two_pages))
                             (mkQSizeF 500 500)))
                       (reached two_pages)))%float = false.
Proof.
  assert (H : m_items (reached two_pages) <> [])
    by (vm_compute; discriminate).
  split; [exact H|].
  exact (proj1 (what_if_never_exceeds_update two_pages 1%N QRectF_null
                  (mkQSizeF 500 500) H)).
Defined.

(** X11. In a store reached by calls none of which left a stored entry
    with a NaN hard size, every stored page fits in the aggregate:
    what [getAggregateHardSizeMM()] returns is not less, on either
    axis, than the hard size made of the margins and content size
    [getPageParams(k)] returns. *)
Theorem every_page_fits (calls : list Call) (k : PageId) (p : Params) :
  never_nan calls = true ->
  result (getPageParams k) (reached calls) = Some p ->
  (width (result getAggregateHardSizeMM (reached calls))
   <? width (hard_size_with (params_hardMarginsMM p)
                            (params_contentSizeMM p)))%float = false
  /\ (height (result getAggregateHardSizeMM (reached calls))
      <? height (hard_size_with (params_hardMarginsMM p)
                                (params_contentSizeMM p)))%float = false.
Proof.
  intros Hn. rewrite getPageParams_find. intros Hp.
  pose proof (reached_ordered calls Hn) as Ho.
  destruct (find k (m_items (reached calls))) as [x|] eqn:Hf;
    [|discriminate].
  inversion Hp; subst p. clear Hp.
  apply find_some in Hf. destruct Hf as [Hin _].
  assert (Hne : m_items (reached calls) <> [])
    by (intros E; rewrite E in Hin; contradiction).
  destruct (extremal_ordered _ Ho Hne)
    as [(iw & Hiw & Kw & Mw) (ih & Hih & Kh & Mh)].
  pose proof (ordered_structural _ Ho) as Hc.
  destruct (m_items (reached calls)) as [|x0 r0] eqn:E; [contradiction|].
  destruct (structural_first _ x0 r0 Hc E) as (w & tw & h & th & Ew & Eh).
  destruct (queries_on_first _ x0 r0 w tw h th E Ew Eh)
    as (-> & Fw & Fh & _).
  destruct Ho as [_ _ Hsw Hsh]. rewrite Ew in Hsw. rewrite Eh in Hsh.
  pose proof (width_entries _ Hc) as Hw.
  pose proof (height_entries _ Hc) as Hh.
  rewrite E, ?Ew, ?Eh in *.
  destruct (maximum_perm _ _ _ _ Hw (first_maximum hardWidthMM w tw Hsw))
    as [_ Aw].
  destruct (maximum_perm _ _ _ _ Hh (first_maximum hardHeightMM h th Hsh))
    as [_ Ah].
  split; [apply (Aw x Hin) | apply (Ah x Hin)].
Qed.

Lemma every_page_fits_witness :
  never_nan two_pages = true
  /\ result (getPageParams 1%N) (reached two_pages)
     = Some (mkParams (mkMargins 10 5 10 5) QRectF_null (mkQSizeF 190 280)
                      m_defaultAlignment)
  /\ (width (result getAggregateHardSizeMM (reached two_pages))
      <? width (hard_size_with (mkMargins 10 5 10 5)
                               (mkQSizeF 190 280)))%float = false.
Proof.
  split; [reflexivity|]. split; [reflexivity|].
  exact (proj1 (every_page_fits two_pages 1%N
                  (mkParams (mkMargins 10 5 10 5) QRectF_null
                            (mkQSizeF 190 280) m_defaultAlignment)
                  eq_refl eq_refl)).
Defined.

(** X12. [setPageAlignment(k, a)] called twice leaves the store that
    calling it once leaves. *)
Theorem setPageAlignment_idempotent (calls : list Call) (k : PageId)
  (a : Alignment) :
  store_after (setPageAlignment k a)
              (store_after (setPageAlignment k a) (reached calls))
  = store_after (setPageAlignment k a) (reached calls).
Proof.
  unfold store_after, setPageAlignment. simpl.
  apply upsert_twice; auto using reached_structural.
Qed.

(** X13. [setContentZone(k, r, sz)] called twice leaves the store that
    calling it once leaves. *)
Theorem setContentZone_idempotent (calls : list Call) (k : PageId)
  (r : QRectF) (sz : QSizeF) :
  store_after (setContentZone k r sz)
              (store_after (setContentZone k r sz) (reached calls))
  = store_after (setContentZone k r sz) (reached calls).
Proof.
  unfold store_after, setContentZone. simpl.
  apply upsert_twice; auto using reached_structural.
Qed.

(** X14. In a store reached by calls none of which left a stored entry
    with a NaN hard size: asked with the hard size a stored page has
    now, the what-if query returns what [getAggregateHardSizeMM()]
    returns. *)
Theorem what_if_current_size (calls : list Call) (k : PageId) (p : Params) :
  never_nan calls = true ->
  result (getPageParams k) (reached calls) = Some p ->
  result (getAggregateHardSizeMM_for k
            (hard_size_with (params_hardMarginsMM p)
                            (params_contentSizeMM p)))
         (reached calls)
  = result getAggregateHardSizeMM (reached calls).
Proof.
  intros Hn. rewrite getPageParams_find. intros Hp.
  destruct (reached_ordered calls Hn) as [Hc _ Hsw Hsh].
  pose proof (structural_NoDup _ Hc) as Hnd.
  destruct (find k (m_items (reached calls))) as [x|] eqn:Hf;
    [|discriminate].
  inversion Hp; subst p. clear Hp.
  pose proof Hf as Hf'.
  apply find_some in Hf. destruct Hf as [Hin Hk].
  destruct (m_items (reached calls)) as [|x0 r0] eqn:E; [contradiction|].
  destruct (structural_first _ x0 r0 Hc E) as (w & tw & h & th & Ew & Eh).
  destruct (queries_on_first _ x0 r0 w tw h th E Ew Eh)
    as (-> & _ & _ & ->).
  pose proof (front_is_found _ _ w tw Hc (width_entries _ Hc) Ew) as Fw.
  pose proof (front_is_found _ _ h th Hc (height_entries _ Hc) Eh) as Fh.
  rewrite E in Fw, Fh.
  rewrite Ew in Hsw. rewrite Eh in Hsh.
  apply QSizeF_eq; cbn [width height hard_size_with item_params
                          params_hardMarginsMM params_contentSizeMM].
  - destruct (N.eq_dec (pageId w) k) as [Ek|Ek].
    + assert (x = w) by (rewrite Ek in Fw; congruence). subst x.
      unfold aggregate_axis. rewrite Ek, N.eqb_refl. simpl.
      destruct tw as [|y tw']; [reflexivity|].
      apply StronglySorted_inv in Hsw. destruct Hsw as [_ Hfw].
      inversion Hfw as [|? ? Hy _]; subst. unfold desc in Hy.
      unfold std_max. fold (hardWidthMM w). now rewrite Hy.
    + now rewrite axis_other.
  - destruct (N.eq_dec (pageId h) k) as [Ek|Ek].
    + assert (x = h) by (rewrite Ek in Fh; congruence). subst x.
      unfold aggregate_axis. rewrite Ek, N.eqb_refl. simpl.
      destruct th as [|y th']; [reflexivity|].
      apply StronglySorted_inv in Hsh. destruct Hsh as [_ Hfh].
      inversion Hfh as [|? ? Hy _]; subst. unfold desc in Hy.
      unfold std_max. fold (hardHeightMM h). now rewrite Hy.
    + now rewrite axis_other.
Qed.

Lemma what_if_current_size_witness :
  never_nan two_pages = true
  /\ result (getPageParams 2%N) (reached two_pages)
     = Some (mkParams (mkMargins 0 0 0 0) QRectF_null (mkQSizeF 300 200)
                      m_defaultAlignment)
  /\ result (getAggregateHardSizeMM_for 2%N
               (hard_size_with (mkMargins 0 0 0 0) (mkQSizeF 300 200)))
            (reached two_pages)
     = result getAggregateHardSizeMM (reached two_pages).
Proof.
  split; [reflexivity|]. split; [reflexivity|].
  exact (what_if_current_size two_pages 2%N
           (mkParams (mkMargins 0 0 0 0) QRectF_null (mkQSizeF 300 200)
                     m_defaultAlignment)
           eq_refl eq_refl).
Defined.

(** X15. If neither the calls made so far nor [setHardMarginsMM(k, m)]
    leave a stored entry with a NaN hard size, then after that call
    [getAggregateHardSizeMM()] returns, on each axis, a value that
    compares equal to the larger of the hard size page [k] now has
    ([m] around the content size it had, zero if it was not stored)
    and the largest hard size among the other pages. *)
Theorem aggregate_after_setHardMarginsMM (calls : list Call) (k : PageId)
  (m : Margins) :
  never_nan (calls ++ [SetHardMarginsMM k m]) = true ->
  (width (result getAggregateHardSizeMM
                 (store_after (setHardMarginsMM k m) (reached calls)))
   =? reference_what_if hardWidthMM k
        (width (hard_size_with m
                  match result (getPageParams k) (reached calls) with
                  | Some p => params_contentSizeMM p
                  | None => m_zeroSize
                  end))
        (m_items (reached calls)))%float = true
  /\ (height (result getAggregateHardSizeMM
                     (store_after (setHardMarginsMM k m) (reached calls)))
      =? reference_what_if hardHeightMM k
           (height (hard_size_with m
                      match result (getPageParams k) (reached calls) with
                      | Some p => params_contentSizeMM p
                      | None => m_zeroSize
                      end))
           (m_items (reached calls)))%float = true.
Proof.
  intros Hn. destruct (reached_app_ordered _ _ Hn) as [Ho Ho'].
  pose proof (ordered_structural _ Ho) as Hc.
  rewrite getPageParams_find.
  set (item := mkItem k m QRectF_null m_zeroSize m_defaultAlignment).
  change (perform (reached calls) (SetHardMarginsMM k m))
    with (upsert k item (ModifyMargins m) (reached calls)) in Ho'.
  change (store_after (setHardMarginsMM k m) (reached calls))
    with (upsert k item (ModifyMargins m) (reached calls)).
  destruct (upsert_stored k item (ModifyMargins m) _
              eq_refl (fun _ => eq_refl) Hc) as (it & Hf & Hit).
  destruct (aggregate_after_upsert k item it (ModifyMargins m) _
              eq_refl (fun _ => eq_refl) Ho' Hf) as [Aw Ah].
  destruct Hit as [[Hnone ->]|(x & Hx & ->)].
  - rewrite Hnone. split; [exact Aw | exact Ah].
  - rewrite Hx. split; [exact Aw | exact Ah].
Qed.

Lemma aggregate_after_setHardMarginsMM_witness :
  never_nan (two_pages ++ [SetHardMarginsMM 1%N (mkMargins 100 0 100 0)])
  = true
  /\ (width (result getAggregateHardSizeMM
               (store_after (setHardMarginsMM 1%N (mkMargins 100 0 100 0))
                            (reached two_pages)))
      =? reference_what_if hardWidthMM 1%N
           (width (hard_size_with (mkMargins 100 0 100 0)
                     match result (getPageParams 1%N) (reached two_pages)
                     with
                     | Some p => params_contentSizeMM p
                     | None => m_zeroSize
                     end))
           (m_items (reached two_pages)))%float = true.
Proof.
  split; [reflexivity|].
  exact (proj1 (aggregate_after_setHardMarginsMM two_pages 1%N
                  (mkMargins 100 0 100 0) eq_refl)).
Defined.

(** X16. For a page no setter has been called on, the what-if query
    returns what [getAggregateHardSizeMM()] returns, whatever the size
    it is asked with: the size of a page that is not stored is never
    taken into account. *)
Theorem what_if_unwritten_page (calls : list Call) (k : PageId)
  (h : QSizeF) :
  ~ In k (map call_page calls) ->
  result (getAggregateHardSizeMM_for k h) (reached calls)
  = result getAggregateHardSizeMM (reached calls).
Proof.
  intros Hk. pose proof (reached_structural calls) as Hc.
  destruct (m_items (reached calls)) as [|y r] eqn:Ei.
  - unfold result, getAggregateHardSizeMM_for, getAggregateHardSizeMM.
    now rewrite Ei.
  - assert (Hne : m_items (reached calls) <> [])
      by (rewrite Ei; discriminate).
    destruct (first_is_stored _ Hc Hne) as [Sw Sh].
    destruct (structural_first _ y r Hc Ei) as (w & tw & hh & th & Ew & Eh).
    destruct (queries_on_first _ y r w tw hh th Ei Ew Eh)
      as (-> & Fw & Fh & ->).
    rewrite Fw in Sw. rewrite Fh in Sh.
    apply QSizeF_eq; cbn [width height]; apply axis_other.
    + intros E. apply Hk, reached_keys. now rewrite <- E.
    + intros E. apply Hk, reached_keys. now rewrite <- E.
Qed.

Lemma what_if_unwritten_page_witness :
  ~ In 9%N (map call_page two_pages)
  /\ result (getAggregateHardSizeMM_for 9%N (mkQSizeF 1000 1000))
            (reached two_pages)
     = result getAggregateHardSizeMM (reached two_pages).
Proof.
  assert (H : ~ In 9%N (map call_page two_pages)).
  { simpl. intros [E|[E|[E|[E|[]]]]]; discriminate E. }
  split; [exact H|].
  exact (what_if_unwritten_page two_pages 9%N (mkQSizeF 1000 1000) H).
Defined.
